(** * go-proxyproto: the header model of [header.go]

    A shallow embedding of [header.go] (package [proxyproto]): the [Header]
    record, [EqualTo], [WriteTo] and [Read], together with the parts of the Go
    runtime and standard library that [header.go] calls ([net.IP.String],
    [bufio.Reader.Peek], slice expressions, [bytes.Equal]).

    Conventions.
    - A Go [byte] is a [Byte.byte]; a [uint16] is a [Z]; a [[]byte] that is only
      read is a [list byte]; a Go [string] is a [string].
    - A pointer [*Header] is an [option Header], [nil] being [None].
    - A Go call that may panic returns a [result]; state that a call mutates
      (the [bufio.Reader], the [io.Writer]) is passed in and handed back. *)

From Stdlib Require Import Strings.String Strings.Ascii Strings.Byte.
From Stdlib Require Import DecimalString HexadecimalString.
From Stdlib Require Import List ZArith NArith Bool Lia.
Import ListNotations.

Local Open Scope nat_scope.
Local Open Scope list_scope.

(** ** Outcomes of a Go call *)

(** [Return a]: the call returned [a].  [Panic]: a run-time panic (an index or
    slice bound out of range, a nil dereference).  [OutOfFuel]: the bounded
    unrolling of a loop of the model was too short; the theorems below show
    that it never is for the calls they speak about. *)
Inductive result (A : Type) : Type :=
| Return (a : A)
| Panic
| OutOfFuel.

Arguments Return {A} a.
Arguments Panic {A}.
Arguments OutOfFuel {A}.

Definition bind {A B : Type} (c : result A) (k : A -> result B) : result B :=
  match c with
  | Return a => k a
  | Panic => Panic
  | OutOfFuel => OutOfFuel
  end.

Notation "x <- c ;; k" := (bind c (fun x => k))
  (at level 61, c at next level, right associativity).
Notation "' p <- c ;; k" := (bind c (fun x => let 'p := x in k))
  (at level 61, p pattern, c at next level, right associativity).

(** ** Errors *)

(** The sentinel errors of [header.go] (its [var] block), and the errors of
    [io] and [bufio] that the buffered reader produces.  [io.Reader]s of the
    outside world may fail with anything else: [OtherError]. *)
Inductive error : Type :=
| ErrCantReadProtocolVersionAndCommand
| ErrCantReadAddressFamilyAndProtocol
| ErrCantReadLength
| ErrCantResolveSourceUnixAddress
| ErrCantResolveDestinationUnixAddress
| ErrNoProxyProtocol
| ErrUnknownProxyProtocolVersion
| ErrUnsupportedProtocolVersionAndCommand
| ErrUnsupportedAddressFamilyAndProtocol
| ErrInvalidLength
| ErrInvalidAddress
| ErrInetFamilyDoesntMatchProtocol
| ErrInvalidPortNumber
| io_EOF
| io_ErrNoProgress
| bufio_ErrBufferFull
| OtherError (msg : string).

(** ** Byte slices *)

Definition bytes_Equal (a b : list byte) : bool :=
  if list_eq_dec Byte.byte_eq_dec a b then true else false.

(** The protocol signatures, [header.go] lines 18 and 19. *)
Definition SIGV1 : list byte := [x50; x52; x4f; x58; x59].
Definition SIGV2 : list byte :=
  [x0d; x0a; x0d; x0a; x00; x0d; x0a; x51; x55; x49; x54; x0a].

(** ** package net: the textual form of an IP address *)

Module net.

(** [type IP []byte]. *)
Definition IP : Type := list byte.

Definition IPv4len : nat := 4.
Definition IPv6len : nat := 16.

Definition isZeros (p : list byte) : bool := forallb (Byte.eqb x00) p.

(** [IP.To4]: the 4-byte form of an IPv4 address, held in 4 bytes or as an
    IPv4-mapped 16-byte address; [nil] otherwise. *)
Definition To4 (ip : IP) : IP :=
  if length ip =? IPv4len then ip
  else if (length ip =? IPv6len) && isZeros (firstn 10 ip)
          && Byte.eqb (nth 10 ip x00) xff && Byte.eqb (nth 11 ip x00) xff
  then skipn 12 ip
  else [].

Definition uitoa (n : N) : string :=
  DecimalString.NilEmpty.string_of_uint (N.to_uint n).

Definition appendHex (n : N) : string :=
  HexadecimalString.NilEmpty.string_of_uint (N.to_hex_uint n).

Definition hexdigit (n : N) : string := appendHex (n mod 16).

(** [hexString]: two lower-case hexadecimal digits per byte. *)
Fixpoint hexString (b : list byte) : string :=
  match b with
  | [] => EmptyString
  | x :: b' =>
      (hexdigit (Byte.to_N x / 16) ++ hexdigit (Byte.to_N x) ++ hexString b')%string
  end.

(** The eight 16-bit groups of a 16-byte address, big-endian. *)
Fixpoint groups (p : list byte) : list N :=
  match p with
  | hi :: lo :: p' => (Byte.to_N hi * 256 + Byte.to_N lo)%N :: groups p'
  | _ => []
  end.

Fixpoint zero_run (g : list N) : nat :=
  match g with
  | 0%N :: g' => S (zero_run g')
  | _ => 0
  end.

(** The longest run of zero groups, of two groups at least, the first one
    among the longest: [(start, end)], or [None]. *)
Fixpoint longest_zero_run (g : list N) (i : nat) (best : option (nat * nat))
  : option (nat * nat) :=
  match g with
  | [] => best
  | _ :: g' =>
      let l := zero_run g in
      let width := match best with Some (s, e) => e - s | None => 0 end in
      let best' := if (2 <=? l) && (width <? l) then Some (i, i + l) else best in
      longest_zero_run g' (S i) best'
  end.

Definition colon (i : nat) : string := if 0 <? i then ":"%string else EmptyString.

(** The printing loop of the IPv6 form: [::] stands for the run [zeros]. *)
Fixpoint print6 (fuel : nat) (g : list N) (zeros : option (nat * nat)) (i : nat)
  : string :=
  match fuel with
  | 0 => EmptyString
  | S fuel' =>
      if 8 <=? i then EmptyString
      else
        match zeros with
        | Some (s, e) =>
            if i =? s then
              if 8 <=? e then "::"%string
              else ("::" ++ appendHex (nth e g 0%N) ++ print6 fuel' g zeros (S e))%string
            else
              (colon i ++ appendHex (nth i g 0%N) ++ print6 fuel' g zeros (S i))%string
        | None =>
            (colon i ++ appendHex (nth i g 0%N) ++ print6 fuel' g zeros (S i))%string
        end
  end.

Definition dotted (p4 : list byte) : string :=
  (uitoa (Byte.to_N (nth 0 p4 x00)) ++ "." ++ uitoa (Byte.to_N (nth 1 p4 x00)) ++ "."
     ++ uitoa (Byte.to_N (nth 2 p4 x00)) ++ "." ++ uitoa (Byte.to_N (nth 3 p4 x00)))%string.

(** [IP.String]: ["<nil>"] for an empty address, ["?"] and the bytes in
    hexadecimal for a length that is neither 4 nor 16, dotted decimal for an
    IPv4 address (also when IPv4-mapped), the compressed colon form
    otherwise. *)
Definition IP_String (ip : IP) : string :=
  if length ip =? 0 then "<nil>"%string
  else if negb (length ip =? IPv4len) && negb (length ip =? IPv6len)
  then ("?" ++ hexString ip)%string
  else if length (To4 ip) =? IPv4len then dotted (To4 ip)
  else print6 8 (groups ip) (longest_zero_run (groups ip) 0 None) 0.

End net.

(** ** The header, [header.go] lines 36 to 45 *)

(** Modelled from the spec: the types [ProtocolVersionAndCommand] and
    [AddressFamilyAndProtocol] of two fields of [Header], declared in files of
    the package that are not part of the sources at hand.  The spec gives each
    as one byte of the version 2 wire format. *)
Definition ProtocolVersionAndCommand : Type := byte.
Definition AddressFamilyAndProtocol : Type := byte.

Record Header : Type := mkHeader {
  Version : byte;
  Command : ProtocolVersionAndCommand;
  TransportProtocol : AddressFamilyAndProtocol;
  SourceAddress : net.IP;
  DestinationAddress : net.IP;
  SourcePort : Z;
  DestinationPort : Z
}.

(** Modelled from the spec: the constants and the method [IsLocal] of
    [ProtocolVersionAndCommand], declared in a file of the package that is not
    part of the sources at hand.  The spec gives the byte as "version<<4 |
    command" with version 2 and command 0x0 = LOCAL, 0x1 = PROXY. *)
Definition LOCAL : ProtocolVersionAndCommand := x20.
Definition PROXY : ProtocolVersionAndCommand := x21.

Definition IsLocal (pvc : ProtocolVersionAndCommand) : bool := Byte.eqb x20 pvc.

(** Modelled from the spec: the constants of [AddressFamilyAndProtocol],
    declared in a file of the package that is not part of the sources at hand.
    The spec gives the byte as "family<<4 | protocol" with family 0x0 UNSPEC,
    0x1 IPv4, 0x2 IPv6, 0x3 Unix and protocol 0x0 UNSPEC, 0x1 STREAM, 0x2
    DGRAM. *)
Definition UNSPEC : AddressFamilyAndProtocol := x00.
Definition TCPv4 : AddressFamilyAndProtocol := x11.
Definition UDPv4 : AddressFamilyAndProtocol := x12.
Definition TCPv6 : AddressFamilyAndProtocol := x21.
Definition UDPv6 : AddressFamilyAndProtocol := x22.
Definition UnixStream : AddressFamilyAndProtocol := x31.
Definition UnixDatagram : AddressFamilyAndProtocol := x32.

Definition IsIPv4 (ap : AddressFamilyAndProtocol) : bool :=
  (Byte.to_N ap / 16 =? 1)%N.
Definition IsIPv6 (ap : AddressFamilyAndProtocol) : bool :=
  (Byte.to_N ap / 16 =? 2)%N.

Definition supported_transport (ap : AddressFamilyAndProtocol) : bool :=
  existsb (Byte.eqb ap) [UNSPEC; TCPv4; UDPv4; TCPv6; UDPv6; UnixStream; UnixDatagram].

(** Modelled from the spec: the invariants of the data model (section 3), the
    "well-formed" headers of the testable properties.  The version is 1 or 2,
    the command LOCAL or PROXY, the transport protocol one of the listed ones,
    the ports 16-bit, and for a PROXY header of an IP family both addresses
    are of that family. *)
Definition well_formed (h : Header) : bool :=
  (Byte.eqb (Version h) x01 || Byte.eqb (Version h) x02)
  && (Byte.eqb (Command h) LOCAL || Byte.eqb (Command h) PROXY)
  && supported_transport (TransportProtocol h)
  && (0 <=? SourcePort h)%Z && (SourcePort h <? 65536)%Z
  && (0 <=? DestinationPort h)%Z && (DestinationPort h <? 65536)%Z
  && (IsLocal (Command h)
      || (if IsIPv4 (TransportProtocol h) then
            (length (net.To4 (SourceAddress h)) =? 4)
            && (length (net.To4 (DestinationAddress h)) =? 4)
          else if IsIPv6 (TransportProtocol h) then
            (length (SourceAddress h) =? 16) && (length (net.To4 (SourceAddress h)) =? 0)
            && (length (DestinationAddress h) =? 16)
            && (length (net.To4 (DestinationAddress h)) =? 0)
          else true)).

(** ** [EqualTo], [header.go] lines 47 to 60 *)

Definition EqualTo (header q : option Header) : bool :=
  match header, q with
  | None, _ | _, None => false
  | Some header, Some q =>
      if IsLocal (Command header) then true
      else
        Byte.eqb (TransportProtocol header) (TransportProtocol q)
        && String.eqb (net.IP_String (SourceAddress header))
                      (net.IP_String (SourceAddress q))
        && String.eqb (net.IP_String (DestinationAddress header))
                      (net.IP_String (DestinationAddress q))
        && (SourcePort header =? SourcePort q)%Z
        && (DestinationPort header =? DestinationPort q)%Z
  end.

(** The header [h] with another version, and with another command. *)
Definition with_Version (v : byte) (h : Header) : Header :=
  {| Version := v; Command := Command h; TransportProtocol := TransportProtocol h;
     SourceAddress := SourceAddress h; DestinationAddress := DestinationAddress h;
     SourcePort := SourcePort h; DestinationPort := DestinationPort h |}.

Definition with_Command (c : ProtocolVersionAndCommand) (h : Header) : Header :=
  {| Version := Version h; Command := c; TransportProtocol := TransportProtocol h;
     SourceAddress := SourceAddress h; DestinationAddress := DestinationAddress h;
     SourcePort := SourcePort h; DestinationPort := DestinationPort h |}.

(** The five fields that [EqualTo] compares, the addresses in their textual
    form. *)
Definition same_endpoints (h q : Header) : Prop :=
  TransportProtocol h = TransportProtocol q
  /\ net.IP_String (SourceAddress h) = net.IP_String (SourceAddress q)
  /\ net.IP_String (DestinationAddress h) = net.IP_String (DestinationAddress q)
  /\ SourcePort h = SourcePort q
  /\ DestinationPort h = DestinationPort q.

(** Two headers used as examples: a LOCAL header as the version 2 decoder
    leaves it, and the PROXY header of the spec's TCP4 example. *)
Definition local_header : Header :=
  {| Version := x02; Command := LOCAL; TransportProtocol := UNSPEC;
     SourceAddress := []; DestinationAddress := [];
     SourcePort := 0; DestinationPort := 0 |}.

Definition tcp4_header : Header :=
  {| Version := x02; Command := PROXY; TransportProtocol := TCPv4;
     SourceAddress := [xc0; xa8; x00; x01];
     DestinationAddress := [xc0; xa8; x00; x0b];
     SourcePort := 56324; DestinationPort := 443 |}.

(** ** [WriteTo], [header.go] lines 62 to 72 *)

(** An [io.Writer]: the bytes the sink has received so far. *)
Definition Writer : Type := list byte.

Section WriteTo.

(** [writeVersion1] and [writeVersion2] are methods of [Header] declared in
    files of the package that are not part of the sources at hand. *)
Variables writeVersion1 writeVersion2 :
  Header -> Writer -> result (Z * option error * Writer).

Definition WriteTo (header : option Header) (w : Writer)
  : result (Z * option error * Writer) :=
  match header with
  | None => Panic
  | Some header =>
      if Byte.eqb (Version header) x01 then writeVersion1 header w
      else if Byte.eqb (Version header) x02 then writeVersion2 header w
      else Return (0%Z, Some ErrUnknownProxyProtocolVersion, w)
  end.

End WriteTo.

(** ** package io and bufio: the buffered reader *)

Module bufio.

(** An [io.Reader] of the outside world, as the script of what its
    successive [Read] calls deliver: each entry is a chunk of bytes and the
    error returned with its last byte, if any.  A call with room for less
    than the chunk takes what fits and leaves the rest; once the script is
    over every call returns [0, io.EOF]. *)
Definition io_Reader : Type := list (list byte * option error).

Definition io_Read (rd : io_Reader) (room : nat)
  : list byte * option error * io_Reader :=
  match rd with
  | [] => ([], Some io_EOF, [])
  | (chunk, e) :: rest =>
      if length chunk <=? room then (chunk, e, rest)
      else (firstn room chunk, None, (skipn room chunk, e) :: rest)
  end.

(** All the bytes the reader will deliver. *)
Definition stream_bytes (rd : io_Reader) : list byte := concat (map fst rd).

(** [type Reader struct]: the buffer, the underlying reader, the read and
    write positions in the buffer and the pending error.  (The fields that
    serve [UnreadByte] and [UnreadRune] are left out.) *)
Record Reader : Type := mkReader {
  buf : list byte;
  rd : io_Reader;
  r : nat;
  w : nat;
  err : option error
}.

Definition minReadBufferSize : nat := 16.
Definition defaultBufSize : nat := 4096.
Definition maxConsecutiveEmptyReads : nat := 100.

(** [NewReaderSize]: a zeroed buffer of [size] bytes, 16 at least, and
    nothing read yet. *)
Definition NewReaderSize (rd : io_Reader) (size : nat) : Reader :=
  {| buf := repeat x00 (Nat.max size minReadBufferSize);
     rd := rd; r := 0; w := 0; err := None |}.

Definition NewReader (rd : io_Reader) : Reader := NewReaderSize rd defaultBufSize.

(** A Go slice value: the backing array it points into, where it starts
    there, its length and its capacity. *)
Record slice : Type := mkslice {
  array : list byte;
  offset : nat;
  len : nat;
  cap : nat
}.

Definition bytes_of (s : slice) : list byte :=
  firstn (len s) (skipn (offset s) (array s)).

(** [a[lo:hi]] for the buffer [a], a slice whose length and capacity are
    both [length a]. *)
Definition slice_buf (a : list byte) (lo hi : nat) : result slice :=
  if (lo <=? hi) && (hi <=? length a)
  then Return {| array := a; offset := lo; len := hi - lo; cap := length a - lo |}
  else Panic.

(** [s[:hi]] for a slice [s].  The Go specification bounds the upper index
    of a slice expression on a slice by the capacity of the operand, not by
    its length: "For slices, the upper index bound is the slice capacity
    cap(a) rather than the length".  The result may therefore show bytes of
    the backing array that lie past the operand's length. *)
Definition slice_to (s : slice) (hi : nat) : result slice :=
  if hi <=? cap s
  then Return {| array := array s; offset := offset s; len := hi; cap := cap s |}
  else Panic.

(** [copy(dst, src)] into the front of the buffer. *)
Definition copy (dst src : list byte) : list byte :=
  firstn (length dst) src ++ skipn (length src) dst.

(** One [b.rd.Read(b.buf[b.w:])] of [fill], and its bookkeeping. *)
Definition read_into (b : Reader) : nat * option error * Reader :=
  let '(bs, e, rd') := io_Read (rd b) (length (buf b) - w b) in
  (length bs, e,
   {| buf := firstn (w b) (buf b) ++ bs ++ skipn (w b + length bs) (buf b);
      rd := rd'; r := r b; w := w b + length bs; err := err b |}).

Definition set_err (b : Reader) (e : option error) : Reader :=
  {| buf := buf b; rd := rd b; r := r b; w := w b; err := e |}.

(** The reading loop of [fill]: [for i := maxConsecutiveEmptyReads; i > 0;
    i--]. *)
Fixpoint fill_loop (i : nat) (b : Reader) : Reader :=
  match i with
  | 0 => set_err b (Some io_ErrNoProgress)
  | S i' =>
      let '(n, e, b') := read_into b in
      match e with
      | Some _ => set_err b' e
      | None => if 0 <? n then b' else fill_loop i' b'
      end
  end.

(** [fill]: slide the unread bytes to the front of the buffer, then read
    a new chunk after them. *)
Definition fill (b : Reader) : result Reader :=
  let b :=
    if 0 <? r b then
      {| buf := copy (buf b) (firstn (w b - r b) (skipn (r b) (buf b)));
         rd := rd b; r := 0; w := w b - r b; err := err b |}
    else b in
  if length (buf b) <=? w b then Panic
  else Return (fill_loop maxConsecutiveEmptyReads b).

(** [readErr]: hand out the pending error and clear it. *)
Definition readErr (b : Reader) : option error * Reader :=
  (err b, set_err b None).

Definition peek_more (b : Reader) (n : nat) : bool :=
  (w b - r b <? n) && (w b - r b <? length (buf b))
  && match err b with None => true | Some _ => false end.

(** The loop of [Peek]: [for b.w-b.r < n && b.w-b.r < len(b.buf) && b.err ==
    nil { b.fill() }], unrolled [fuel] times at most. *)
Fixpoint peek_loop (fuel : nat) (b : Reader) (n : nat) : result Reader :=
  if peek_more b n then
    match fuel with
    | 0 => OutOfFuel
    | S fuel' => b' <- fill b ;; peek_loop fuel' b' n
    end
  else Return b.

(** [Peek]: the next [n] bytes without advancing the reader; fewer, with
    the error that explains why, when the stream or the buffer is too
    short.  Every round of the loop but the last adds a byte to the buffer,
    so that [length (buf b)] rounds and one are enough. *)
Definition Peek (b : Reader) (n : nat) : result (slice * option error * Reader) :=
  b <- peek_loop (S (length (buf b))) b n ;;
  if length (buf b) <? n then
    s <- slice_buf (buf b) (r b) (w b) ;;
    Return (s, Some bufio_ErrBufferFull, b)
  else if w b - r b <? n then
    let '(e, b') := readErr b in
    let e := match e with None => Some bufio_ErrBufferFull | Some _ => e end in
    s <- slice_buf (buf b') (r b') (r b' + (w b - r b)) ;;
    Return (s, e, b')
  else
    s <- slice_buf (buf b) (r b) (r b + n) ;;
    Return (s, None, b).

(** What the reader still has to deliver: the unread part of the buffer,
    then the rest of the stream. *)
Definition unread (b : Reader) : list byte :=
  firstn (w b - r b) (skipn (r b) (buf b)) ++ stream_bytes (rd b).

(** A reader from which nothing has been consumed, as [NewReaderSize] makes
it and [Peek] keeps it: the read position is 0, the buffer holds the first
[w] bytes of [stream] and is zero from there on, and the underlying reader
has the rest of [stream] to deliver. *)
Definition unconsumed (stream : list byte) (size : nat) (b : Reader) : Prop :=
  length (buf b) = size
  /\ r b = 0
  /\ w b <= size
  /\ skipn (w b) (buf b) = repeat x00 (size - w b)
  /\ firstn (w b) (buf b) ++ stream_bytes (rd b) = stream.

End bufio.

(** ** [Read], [header.go] lines 74 to 94 *)

Section Read.

(** [parseVersion1] and [parseVersion2] are functions of the package
    declared in files that are not part of the sources at hand. *)
Variables parseVersion1 parseVersion2 :
  bufio.Reader -> result (option Header * option error * bufio.Reader).

Definition Read (reader : bufio.Reader)
  : result (option Header * option error * bufio.Reader) :=
  '(signature, _, reader) <- bufio.Peek reader 13 ;;
  sig5 <- bufio.slice_to signature 5 ;;
  if bytes_Equal (bufio.bytes_of sig5) SIGV1 then parseVersion1 reader
  else
    sig12 <- bufio.slice_to signature 12 ;;
    if bytes_Equal (bufio.bytes_of sig12) SIGV2 then parseVersion2 reader
    else Return (None, Some ErrNoProxyProtocol, reader).

End Read.

(** The bytes that the [Peek] of [Read] hands back, and the reader after it. *)
Definition peeked (reader : bufio.Reader) : list byte :=
  match bufio.Peek reader 13 with
  | Return (signature, _, _) => bufio.bytes_of signature
  | _ => []
  end.

Definition after_Peek (reader : bufio.Reader) : bufio.Reader :=
  match bufio.Peek reader 13 with
  | Return (_, _, reader') => reader'
  | _ => reader
  end.

(** ** Definitions used by the further properties *)

(** Reading back the dotted decimal form: the number at the front of a
    string and what follows it, the string after its first character, and the
    four numbers of a dotted quad. *)
Definition is_digit (c : ascii) : bool :=
  (48 <=? nat_of_ascii c) && (nat_of_ascii c <=? 57).

Fixpoint read_number (s : string) (acc : N) : N * string :=
  match s with
  | EmptyString => (acc, EmptyString)
  | String c s' =>
      if is_digit c then read_number s' (acc * 10 + N.of_nat (nat_of_ascii c - 48))%N
      else (acc, s)
  end.

Definition after_first (s : string) : string :=
  match s with
  | EmptyString => EmptyString
  | String _ s' => s'
  end.

Definition read_quad (s : string) : list N :=
  let '(a, s1) := read_number s 0%N in
  let '(b, s2) := read_number (after_first s1) 0%N in
  let '(c, s3) := read_number (after_first s2) 0%N in
  let '(d, _) := read_number (after_first s3) 0%N in
  [a; b; c; d].

(** A buffered reader as the code of [bufio] keeps it: the read position is
    not past the write position, which is not past the end of the buffer. *)
Definition reader_ok (b : bufio.Reader) : Prop :=
  bufio.r b <= bufio.w b /\ bufio.w b <= length (bufio.buf b).

(** The unread part of the buffer. *)
Definition buffered (b : bufio.Reader) : list byte :=
  firstn (bufio.w b - bufio.r b) (skipn (bufio.r b) (bufio.buf b)).


(** Two readers that were read from before, as the public operations of
    [bufio] leave them.  [reader_after_PROXY]: a reader with a buffer of 16
    bytes over the 7-byte stream "PROXYPR", after [Discard(5)]; the first
    fill put the 7 bytes at the front of the buffer and the read position is
    5, so that "PR" is all that is left of the stream.  [reader_after_SIGV2]:
    the same over the 14-byte stream made of the version 2 signature and one
    CR LF, after [Discard(12)]; CR LF is all that is left of the stream. *)
Definition reader_after_PROXY : bufio.Reader :=
  {| bufio.buf := list_byte_of_string "PROXYPR" ++ repeat x00 9;
     bufio.rd := []; bufio.r := 5; bufio.w := 7; bufio.err := None |}.

Definition reader_after_SIGV2 : bufio.Reader :=
  {| bufio.buf := SIGV2 ++ [x0d; x0a] ++ repeat x00 2;
     bufio.rd := []; bufio.r := 12; bufio.w := 14; bufio.err := None |}.

(** * Properties *)

Lemma bytes_Equal_true (a b : list byte) : bytes_Equal a b = true <-> a = b.
Proof.
  unfold bytes_Equal. destruct (list_eq_dec _ a b); split; congruence.
Qed.

Lemma bytes_Equal_false (a b : list byte) : bytes_Equal a b = false <-> a <> b.
Proof.
  unfold bytes_Equal. destruct (list_eq_dec _ a b); split; congruence.
Qed.


(** ** Small checks of the textual form of addresses *)

Example IP_String_v4 :
  net.IP_String [xc0; xa8; x00; x01] = "192.168.0.1"%string.
Proof. reflexivity. Qed.

Example IP_String_v4_mapped :
  net.IP_String [x00; x00; x00; x00; x00; x00; x00; x00; x00; x00; xff; xff;
                 xc0; xa8; x00; x0b] = "192.168.0.11"%string.
Proof. reflexivity. Qed.

Example IP_String_v6 :
  net.IP_String [x20; x01; x0d; xb8; x00; x00; x00; x00; x00; x00; x00; x00;
                 x00; x00; x00; x01] = "2001:db8::1"%string.
Proof. reflexivity. Qed.

Example IP_String_v6_runs :
  net.IP_String [x00; x01; x00; x00; x00; x00; x00; x02; x00; x00; x00; x00;
                 x00; x00; x00; x03] = "1:0:0:2::3"%string.
Proof. reflexivity. Qed.

Example IP_String_v6_any :
  net.IP_String (repeat x00 16) = "::"%string.
Proof. reflexivity. Qed.

Example IP_String_nil : net.IP_String [] = "<nil>"%string.
Proof. reflexivity. Qed.

Example IP_String_odd : net.IP_String [x0a; xff] = "?0aff"%string.
Proof. reflexivity. Qed.

(** ** Equality of headers *)

Lemma Byte_eqb_eq (x y : byte) : Byte.eqb x y = true <-> x = y.
Proof.
  split; [apply Byte.byte_dec_bl | apply Byte.byte_dec_lb].
Qed.

Lemma Byte_eqb_neq (x y : byte) : Byte.eqb x y = false <-> x <> y.
Proof.
  split.
  - apply Byte.eqb_false.
  - intros Hne. destruct (Byte.eqb x y) eqn:E; [|reflexivity].
    apply Byte_eqb_eq in E. contradiction.
Qed.

Lemma IsLocal_LOCAL (c : ProtocolVersionAndCommand) : IsLocal c = true <-> c = LOCAL.
Proof.
  unfold IsLocal, LOCAL. rewrite Byte_eqb_eq. split; congruence.
Qed.

Lemma IsLocal_not_LOCAL (c : ProtocolVersionAndCommand) :
  IsLocal c = false <-> c <> LOCAL.
Proof.
  unfold IsLocal, LOCAL. rewrite Byte_eqb_neq. split; congruence.
Qed.

(** The comparison that [EqualTo] falls back to is the conjunction of five
    equalities. *)
Lemma EqualTo_fields (h q : Header) :
  IsLocal (Command h) = false ->
  (EqualTo (Some h) (Some q) = true <-> same_endpoints h q).
Proof.
  intros Hl. unfold same_endpoints. simpl. rewrite Hl.
  rewrite !andb_true_iff, Byte_eqb_eq, !String.eqb_eq, !Z.eqb_eq.
  tauto.
Qed.

Lemma EqualTo_receiver_local (h q : Header) :
  IsLocal (Command h) = true -> EqualTo (Some h) (Some q) = true.
Proof.
  intros Hl. simpl. now rewrite Hl.
Qed.

Lemma same_endpoints_sym (h q : Header) : same_endpoints h q -> same_endpoints q h.
Proof.
  unfold same_endpoints. intuition congruence.
Qed.

Lemma same_endpoints_refl (h : Header) : same_endpoints h h.
Proof.
  unfold same_endpoints. tauto.
Qed.

Lemma EqualTo_self (a : Header) : EqualTo (Some a) (Some a) = true.
Proof.
  destruct (IsLocal (Command a)) eqn:Ha.
  - now apply EqualTo_receiver_local.
  - apply EqualTo_fields; [exact Ha | apply same_endpoints_refl].
Qed.

(** C7: a nil header is never equal to anything: [h.EqualTo(nil)] is false
    for every [h], nil or not, and a nil receiver compares false with
    everything, nil included. *)
Theorem EqualTo_nil_is_false (h : option Header) :
  EqualTo h None = false /\ EqualTo None h = false.
Proof.
  split; [destruct h|]; reflexivity.
Qed.

(** C6: two non-nil headers that both have command LOCAL are equal, whatever
    their versions, transport protocols, addresses and ports. *)
Theorem EqualTo_both_LOCAL (h q : Header) :
  Command h = LOCAL -> Command q = LOCAL -> EqualTo (Some h) (Some q) = true.
Proof.
  intros Hh _. apply EqualTo_receiver_local. now apply IsLocal_LOCAL.
Qed.

Lemma EqualTo_both_LOCAL_witness :
  EqualTo (Some local_header)
          (Some (with_Command LOCAL (with_Version x01 tcp4_header))) = true.
Proof.
  apply (EqualTo_both_LOCAL local_header
           (with_Command LOCAL (with_Version x01 tcp4_header))); reflexivity.
Defined.

(** C9: a non-nil receiver with command LOCAL is equal to every non-nil
    header, also to one with command PROXY whose transport protocol,
    addresses and ports are arbitrary. *)
Theorem EqualTo_LOCAL_receiver (h q : Header) :
  Command h = LOCAL -> EqualTo (Some h) (Some q) = true.
Proof.
  intros Hh. unfold EqualTo.
  replace (IsLocal (Command h)) with true; [reflexivity|].
  symmetry. now apply IsLocal_LOCAL.
Qed.

Lemma EqualTo_LOCAL_receiver_witness :
  Command tcp4_header = PROXY /\ EqualTo (Some local_header) (Some tcp4_header) = true.
Proof.
  split; [reflexivity|].
  apply (EqualTo_LOCAL_receiver local_header tcp4_header). reflexivity.
Defined.

(** C10: [EqualTo] looks neither at the version of either header nor at the
    command of its argument: changing them changes no result, and when the
    receiver's command is not LOCAL and the transport protocols, the textual
    forms of both addresses and both ports agree, the headers are equal
    whatever those three fields hold. *)
Theorem EqualTo_ignores_Version_and_argument_Command
    (h q : Header) (v v' : byte) (c : ProtocolVersionAndCommand) :
  EqualTo (Some (with_Version v h)) (Some (with_Command c (with_Version v' q)))
  = EqualTo (Some h) (Some q)
  /\ (Command h <> LOCAL -> same_endpoints h q ->
      EqualTo (Some (with_Version v h)) (Some (with_Command c (with_Version v' q)))
      = true).
Proof.
  assert (Hinv : EqualTo (Some (with_Version v h))
                         (Some (with_Command c (with_Version v' q)))
                 = EqualTo (Some h) (Some q)) by reflexivity.
  split; [exact Hinv|].
  intros Hc Hs. rewrite Hinv.
  apply EqualTo_fields; [now apply IsLocal_not_LOCAL | exact Hs].
Qed.

Lemma EqualTo_ignores_Version_and_argument_Command_witness :
  EqualTo (Some (with_Version x01 tcp4_header))
          (Some (with_Command LOCAL (with_Version x07 tcp4_header))) = true.
Proof.
  apply (EqualTo_ignores_Version_and_argument_Command
           tcp4_header tcp4_header x01 x07 LOCAL).
  - discriminate.
  - apply same_endpoints_refl.
Defined.

(** C5, as the code has it: two non-nil headers are equal exactly when the
    receiver has command LOCAL, or the transport protocols, the textual forms
    of the source and of the destination addresses, the source ports and the
    destination ports all agree.  The command of the argument plays no
    part. *)
Theorem EqualTo_true_iff (h q : Header) :
  EqualTo (Some h) (Some q) = true <-> (Command h = LOCAL \/ same_endpoints h q).
Proof.
  destruct (IsLocal (Command h)) eqn:Hl.
  - split; intros _.
    + left. now apply IsLocal_LOCAL.
    + now apply EqualTo_receiver_local.
  - rewrite (EqualTo_fields h q Hl). apply IsLocal_not_LOCAL in Hl. tauto.
Qed.

(** C5 as stated fails: a LOCAL receiver is equal to a PROXY header, although
    not both commands are LOCAL and the five fields differ. *)
Lemma EqualTo_LOCAL_with_PROXY_is_true :
  EqualTo (Some local_header) (Some tcp4_header) = true
  /\ ~ ((Command local_header = LOCAL /\ Command tcp4_header = LOCAL)
        \/ same_endpoints local_header tcp4_header).
Proof.
  split; [reflexivity|].
  intros [[_ Hq] | [Ht _]]; discriminate.
Qed.

(** C2, as the code has it: [EqualTo] is reflexive on every non-nil header,
    and symmetric on every pair of non-nil headers of which both or neither
    has command LOCAL. *)
Theorem EqualTo_refl_and_sym_same_locality (a b : Header) :
  EqualTo (Some a) (Some a) = true
  /\ (IsLocal (Command a) = IsLocal (Command b) ->
      EqualTo (Some a) (Some b) = EqualTo (Some b) (Some a)).
Proof.
  split.
  - apply EqualTo_self.
  - intros Hab.
    destruct (IsLocal (Command a)) eqn:Ha; symmetry in Hab.
    + now rewrite !EqualTo_receiver_local.
    + destruct (EqualTo (Some a) (Some b)) eqn:E1, (EqualTo (Some b) (Some a)) eqn:E2;
        try reflexivity.
      * apply (EqualTo_fields a b Ha) in E1. apply same_endpoints_sym in E1.
        apply (EqualTo_fields b a Hab) in E1. congruence.
      * apply (EqualTo_fields b a Hab) in E2. apply same_endpoints_sym in E2.
        apply (EqualTo_fields a b Ha) in E2. congruence.
Qed.

Lemma EqualTo_refl_and_sym_same_locality_witness :
  EqualTo (Some tcp4_header) (Some tcp4_header) = true
  /\ EqualTo (Some tcp4_header) (Some (with_Version x01 tcp4_header))
     = EqualTo (Some (with_Version x01 tcp4_header)) (Some tcp4_header).
Proof.
  destruct (EqualTo_refl_and_sym_same_locality
              tcp4_header (with_Version x01 tcp4_header)) as [Hr Hs].
  split; [exact Hr | apply Hs; reflexivity].
Defined.

(** C2 as stated fails: of two well-formed headers of which exactly one has
    command LOCAL, the LOCAL one is equal to the other, but not the other way
    round. *)
Lemma EqualTo_not_symmetric :
  well_formed local_header = true /\ well_formed tcp4_header = true
  /\ EqualTo (Some local_header) (Some tcp4_header) = true
  /\ EqualTo (Some tcp4_header) (Some local_header) = false.
Proof.
  repeat split; reflexivity.
Qed.

(** ** Encoding *)

(** C4: for a header whose version is neither 1 nor 2, [WriteTo] fails with
    "unknown proxy protocol version", reports 0 bytes written and leaves the
    sink as it was. *)
Theorem WriteTo_unknown_version
    (writeVersion1 writeVersion2 : Header -> Writer -> result (Z * option error * Writer))
    (h : Header) (w : Writer) :
  Version h <> x01 -> Version h <> x02 ->
  WriteTo writeVersion1 writeVersion2 (Some h) w
  = Return (0%Z, Some ErrUnknownProxyProtocolVersion, w).
Proof.
  intros H1 H2. unfold WriteTo.
  apply Byte_eqb_neq in H1, H2. now rewrite H1, H2.
Qed.

Lemma WriteTo_unknown_version_witness :
  WriteTo (fun _ w => Return (0%Z, None, w ++ SIGV1))
          (fun _ w => Return (0%Z, None, w ++ SIGV2))
          (Some (with_Version x03 tcp4_header)) [x2a]
  = Return (0%Z, Some ErrUnknownProxyProtocolVersion, [x2a]).
Proof.
  apply (WriteTo_unknown_version
           (fun _ w => Return (0%Z, None, w ++ SIGV1))
           (fun _ w => Return (0%Z, None, w ++ SIGV2))
           (with_Version x03 tcp4_header) [x2a]); discriminate.
Defined.

(** ** The buffered reader *)

Lemma skipn_repeat {A : Type} (x : A) (n k : nat) :
  skipn k (repeat x n) = repeat x (n - k).
Proof.
  revert n. induction k as [|k IH]; intros [|n]; simpl; auto.
Qed.

Lemma firstn_repeat {A : Type} (x : A) (n k : nat) :
  firstn k (repeat x n) = repeat x (Nat.min k n).
Proof.
  revert n. induction k as [|k IH]; intros [|n]; simpl; auto.
  now rewrite IH.
Qed.

Lemma skipn_app_exact {A : Type} (l1 l2 : list A) (n k : nat) :
  length l1 = n -> skipn (n + k) (l1 ++ l2) = skipn k l2.
Proof.
  intros <-. rewrite skipn_app, skipn_all2 by lia.
  simpl. f_equal. lia.
Qed.

Lemma firstn_app_exact {A : Type} (l1 l2 : list A) (n k : nat) :
  length l1 = n -> firstn (n + k) (l1 ++ l2) = l1 ++ firstn k l2.
Proof.
  intros <-. apply firstn_app_2.
Qed.

(** Zero padding never completes a signature that ends in a non-zero byte. *)
Lemma firstn_padded (sig data : list byte) (m : nat) :
  last sig x00 <> x00 ->
  firstn (length sig) (data ++ repeat x00 m) = sig <-> firstn (length sig) data = sig.
Proof.
  intros Hlast.
  destruct (Nat.le_gt_cases (length sig) (length data)) as [Hle | Hgt].
  - rewrite firstn_app.
    replace (length sig - length data) with 0 by lia.
    rewrite firstn_0, app_nil_r. tauto.
  - split; intros H; exfalso.
    + rewrite firstn_app, firstn_repeat in H.
      rewrite (firstn_all2 data) in H by lia.
      assert (Hlen : length sig = length data
                                  + Nat.min (length sig - length data) m).
      { rewrite <- H at 1. now rewrite length_app, repeat_length. }
      destruct (Nat.min (length sig - length data) m) as [|j] eqn:Hj; [lia|].
      apply Hlast. rewrite <- H.
      change (repeat x00 (S j)) with (x00 :: repeat x00 j).
      rewrite repeat_cons, app_assoc. apply last_last.
    + assert (Hlen : length (firstn (length sig) data) = length sig) by now rewrite H.
      rewrite length_firstn in Hlen. lia.
Qed.

Lemma bytes_Equal_congr (a b c d : list byte) :
  (a = b <-> c = d) -> bytes_Equal a b = bytes_Equal c d.
Proof.
  intros H.
  destruct (bytes_Equal a b) eqn:E1, (bytes_Equal c d) eqn:E2; try reflexivity.
  - apply bytes_Equal_true in E1. apply bytes_Equal_false in E2. tauto.
  - apply bytes_Equal_false in E1. apply bytes_Equal_true in E2. tauto.
Qed.

Lemma io_Read_spec (rd : bufio.io_Reader) (room : nat) bs e rd' :
  bufio.io_Read rd room = (bs, e, rd') ->
  length bs <= room /\ bs ++ bufio.stream_bytes rd' = bufio.stream_bytes rd.
Proof.
  unfold bufio.io_Read, bufio.stream_bytes.
  destruct rd as [|[chunk e0] rest].
  - intros [= <- <- <-]. simpl. split; [lia | reflexivity].
  - destruct (length chunk <=? room) eqn:Hfit.
    + intros [= <- <- <-]. apply Nat.leb_le in Hfit. simpl. tauto.
    + intros [= <- <- <-]. simpl. split.
      * rewrite length_firstn. lia.
      * now rewrite app_assoc, firstn_skipn.
Qed.

Section Unconsumed.

Variable stream : list byte.
Variable size : nat.

Local Abbreviation inv := (bufio.unconsumed stream size).

Lemma set_err_unconsumed (b : bufio.Reader) (e : option error) :
  inv b -> inv (bufio.set_err b e).
Proof.
  unfold bufio.unconsumed. simpl. tauto.
Qed.

Lemma read_into_unconsumed (b : bufio.Reader) n e b' :
  inv b -> bufio.w b < size -> bufio.read_into b = (n, e, b') ->
  inv b' /\ bufio.w b' = bufio.w b + n /\ bufio.err b' = bufio.err b.
Proof.
  intros (Hlen & Hr & Hw & Hzero & Hdata) Hroom.
  unfold bufio.read_into.
  destruct (bufio.io_Read (bufio.rd b) (length (bufio.buf b) - bufio.w b))
    as [[bs e0] rd'] eqn:Hread.
  apply io_Read_spec in Hread. destruct Hread as [Hfit Hbytes].
  intros [= <- <- <-]. unfold bufio.unconsumed. simpl.
  assert (Hfirst : length (firstn (bufio.w b) (bufio.buf b)) = bufio.w b)
    by (rewrite length_firstn; lia).
  assert (Hrest : skipn (bufio.w b + length bs) (bufio.buf b)
                  = repeat x00 (size - (bufio.w b + length bs))).
  { rewrite Nat.add_comm, <- skipn_skipn, Hzero, skipn_repeat. f_equal. lia. }
  repeat split; trivial.
  - rewrite !length_app, Hfirst, Hrest, repeat_length. lia.
  - lia.
  - rewrite (skipn_app_exact _ _ _ _ Hfirst).
    rewrite <- (Nat.add_0_r (length bs)) at 1.
    rewrite (skipn_app_exact _ _ _ _ eq_refl). exact Hrest.
  - rewrite (firstn_app_exact _ _ _ _ Hfirst).
    rewrite <- (Nat.add_0_r (length bs)) at 1.
    rewrite (firstn_app_exact _ _ _ _ eq_refl), firstn_0, app_nil_r.
    rewrite <- Hdata, <- Hbytes. now rewrite app_assoc.
Qed.

Lemma fill_loop_unconsumed (i : nat) (b : bufio.Reader) :
  inv b -> bufio.w b < size ->
  inv (bufio.fill_loop i b)
  /\ (bufio.err (bufio.fill_loop i b) <> None
      \/ bufio.w b < bufio.w (bufio.fill_loop i b)).
Proof.
  revert b. induction i as [|i IH]; intros b Hinv Hroom; simpl.
  - split; [now apply set_err_unconsumed | left; discriminate].
  - destruct (bufio.read_into b) as [[n e] b'] eqn:Hread.
    destruct (read_into_unconsumed b n e b' Hinv Hroom Hread) as (Hinv' & Hw' & _).
    destruct e as [e|].
    + split; [now apply set_err_unconsumed | left; discriminate].
    + destruct (0 <? n) eqn:Hn.
      * apply Nat.ltb_lt in Hn. split; [exact Hinv' | right; lia].
      * apply Nat.ltb_ge in Hn.
        destruct (IH b' Hinv' ltac:(lia)) as [Hi Hp].
        split; [exact Hi | destruct Hp; [now left | right; lia]].
Qed.

Lemma fill_unconsumed (b : bufio.Reader) :
  inv b -> bufio.w b < size ->
  exists b', bufio.fill b = Return b' /\ inv b'
             /\ (bufio.err b' <> None \/ bufio.w b < bufio.w b').
Proof.
  intros Hinv Hroom.
  destruct Hinv as (Hlen & Hr & Hrest) eqn:Hsplit. clear Hsplit.
  unfold bufio.fill. rewrite Hr.
  change (0 <? 0) with false. cbv beta iota zeta.
  replace (length (bufio.buf b) <=? bufio.w b) with false
    by (symmetry; apply Nat.leb_gt; lia).
  eexists. split; [reflexivity|]. now apply fill_loop_unconsumed.
Qed.

Lemma peek_loop_stop (fuel : nat) (b : bufio.Reader) (n : nat) :
  bufio.peek_more b n = false -> bufio.peek_loop fuel b n = Return b.
Proof.
  intros H. destruct fuel; simpl; now rewrite H.
Qed.

Lemma peek_more_err (b : bufio.Reader) (n : nat) :
  bufio.err b <> None -> bufio.peek_more b n = false.
Proof.
  intros H. unfold bufio.peek_more. destruct (bufio.err b); [|contradiction].
  apply andb_false_r.
Qed.

(** The loop of [Peek] ends: each round sets the pending error or adds a byte
    to the buffer. *)
Lemma peek_loop_unconsumed (fuel : nat) :
  forall (b : bufio.Reader) (n : nat),
    inv b -> size - bufio.w b < fuel ->
    exists b', bufio.peek_loop fuel b n = Return b' /\ inv b'
               /\ bufio.peek_more b' n = false.
Proof.
  induction fuel as [|fuel IH]; intros b n Hinv Hfuel; [lia|].
  destruct (bufio.peek_more b n) eqn:Hmore.
  - assert (Hroom : bufio.w b < size).
    { unfold bufio.peek_more in Hmore.
      destruct Hinv as (Hlen & Hr & _).
      apply andb_prop in Hmore. destruct Hmore as [Hmore _].
      apply andb_prop in Hmore. destruct Hmore as [_ Hmore].
      apply Nat.ltb_lt in Hmore. lia. }
    destruct (fill_unconsumed b Hinv Hroom) as (b1 & Hfill & Hinv1 & Hprog).
    simpl. rewrite Hmore, Hfill. simpl.
    destruct Hprog as [Herr | Hgrow].
    + exists b1. split; [|split; trivial].
      * apply peek_loop_stop. now apply peek_more_err.
      * now apply peek_more_err.
    + apply IH; [exact Hinv1 | lia].
  - exists b. split; [now apply peek_loop_stop | tauto].
Qed.

(** [Peek] of a reader from which nothing was consumed returns a slice at the
    front of the buffer, with the whole capacity of the buffer, and leaves
    the reader unconsumed. *)
Lemma Peek_unconsumed (b : bufio.Reader) (n : nat) :
  inv b -> n <= size ->
  exists e b',
    bufio.Peek b n
    = Return ({| bufio.array := bufio.buf b'; bufio.offset := 0;
                 bufio.len := Nat.min n (bufio.w b'); bufio.cap := size |}, e, b')
    /\ inv b'.
Proof.
  intros Hinv Hn.
  assert (Hlen0 : length (bufio.buf b) = size) by apply Hinv.
  destruct (peek_loop_unconsumed (S (length (bufio.buf b))) b n Hinv ltac:(lia))
    as (b1 & Hloop & Hinv1 & _).
  unfold bufio.Peek. rewrite Hloop. simpl.
  destruct Hinv1 as (Hlen & Hr & Hw & Hzero & Hdata) eqn:Hsplit. clear Hsplit.
  replace (length (bufio.buf b1) <? n) with false
    by (symmetry; apply Nat.ltb_ge; lia).
  rewrite Hr, Nat.sub_0_r. unfold bufio.slice_buf. simpl.
  destruct (bufio.w b1 <? n) eqn:Hshort; simpl.
  - apply Nat.ltb_lt in Hshort.
    replace (bufio.w b1 <=? length (bufio.buf b1)) with true
      by (symmetry; apply Nat.leb_le; lia).
    simpl. rewrite Hlen, !Nat.sub_0_r.
    eexists _, (bufio.set_err b1 None). simpl.
    replace (Nat.min n (bufio.w b1)) with (bufio.w b1) by lia.
    split; [reflexivity | now apply set_err_unconsumed].
  - apply Nat.ltb_ge in Hshort.
    replace (n <=? length (bufio.buf b1)) with true
      by (symmetry; apply Nat.leb_le; lia).
    simpl. rewrite Hlen, !Nat.sub_0_r.
    exists None, b1.
    replace (Nat.min n (bufio.w b1)) with n by lia.
    split; [reflexivity | exact Hinv1].
Qed.

End Unconsumed.

Lemma NewReaderSize_unconsumed (rd : bufio.io_Reader) (size : nat) :
  bufio.unconsumed (bufio.stream_bytes rd) (Nat.max size bufio.minReadBufferSize)
                   (bufio.NewReaderSize rd size).
Proof.
  unfold bufio.unconsumed, bufio.NewReaderSize. simpl.
  rewrite repeat_length, Nat.sub_0_r. repeat split; lia.
Qed.

Lemma unconsumed_buf stream size (b : bufio.Reader) :
  bufio.unconsumed stream size b ->
  bufio.buf b = firstn (bufio.w b) (bufio.buf b) ++ repeat x00 (size - bufio.w b).
Proof.
  intros (_ & _ & _ & Hzero & _). rewrite <- Hzero. symmetry. apply firstn_skipn.
Qed.


Lemma firstn_peeked {A : Type} (l : list A) (k w : nat) :
  k <= 13 -> firstn k (firstn (Nat.min 13 w) l) = firstn k (firstn w l).
Proof.
  intros Hk. rewrite !firstn_firstn. f_equal. lia.
Qed.

(** ** Signature detection on a reader from which nothing was consumed *)

Section Detection.

Variables parseVersion1 parseVersion2 :
  bufio.Reader -> result (option Header * option error * bufio.Reader).
Variable stream : list byte.
Variable size : nat.
Variable reader : bufio.Reader.
Hypothesis Hreader : bufio.unconsumed stream size reader.
Hypothesis Hsize : 13 <= size.

(** What [Peek] hands to [Read], and that the two slice expressions of [Read]
    are in range whatever the length of the peeked slice. *)
Lemma Read_Peek :
  exists signature e sig5 sig12,
    bufio.Peek reader 13 = Return (signature, e, after_Peek reader)
    /\ bufio.slice_to signature 5 = Return sig5
    /\ bufio.slice_to signature 12 = Return sig12
    /\ bufio.bytes_of signature = peeked reader
    /\ bufio.len signature = length (peeked reader)
    /\ (bufio.bytes_of sig5 = SIGV1 <-> firstn 5 (peeked reader) = SIGV1)
    /\ (bufio.bytes_of sig12 = SIGV2 <-> firstn 12 (peeked reader) = SIGV2)
    /\ bufio.unconsumed stream size (after_Peek reader).
Proof.
  destruct (Peek_unconsumed stream size reader 13 Hreader Hsize)
    as (e & b' & Hpeek & Hinv').
  unfold after_Peek, peeked. rewrite Hpeek.
  assert (Hbuf := unconsumed_buf _ _ _ Hinv').
  assert (H5 : (5 <=? size) = true) by (apply Nat.leb_le; lia).
  assert (H12 : (12 <=? size) = true) by (apply Nat.leb_le; lia).
  exists {| bufio.array := bufio.buf b'; bufio.offset := 0;
            bufio.len := Nat.min 13 (bufio.w b'); bufio.cap := size |}, e,
         {| bufio.array := bufio.buf b'; bufio.offset := 0;
            bufio.len := 5; bufio.cap := size |},
         {| bufio.array := bufio.buf b'; bufio.offset := 0;
            bufio.len := 12; bufio.cap := size |}.
  unfold bufio.slice_to, bufio.bytes_of. cbn [bufio.array bufio.offset bufio.len bufio.cap].
  rewrite H5, H12, !skipn_0.
  repeat (split; [reflexivity|]).
  split.
  { rewrite length_firstn. destruct Hinv' as (Hlen & _ & Hw & _). lia. }
  split; [|split; [|exact Hinv']]; rewrite firstn_peeked by lia; rewrite Hbuf at 1.
  - apply (firstn_padded SIGV1). discriminate.
  - apply (firstn_padded SIGV2). discriminate.
Qed.

(** [Read] in one equation: the two tests on the peeked bytes, in the order
    of the code, and what each branch hands back. *)
Lemma Read_unconsumed :
  Read parseVersion1 parseVersion2 reader
  = if bytes_Equal (firstn 5 (peeked reader)) SIGV1
    then parseVersion1 (after_Peek reader)
    else if bytes_Equal (firstn 12 (peeked reader)) SIGV2
         then parseVersion2 (after_Peek reader)
         else Return (None, Some ErrNoProxyProtocol, after_Peek reader).
Proof.
  destruct Read_Peek as (signature & e & sig5 & sig12 & Hpeek & H5 & H12 & _ & _ & E5 & E12 & _).
  unfold Read. rewrite Hpeek. simpl. rewrite H5. simpl. rewrite H12. simpl.
  rewrite (bytes_Equal_congr _ _ _ _ E5), (bytes_Equal_congr _ _ _ _ E12).
  reflexivity.
Qed.

End Detection.

(** ** Signature detection on any reader, when 12 bytes at least are peeked *)

(** A slice that [Peek] returns is within its capacity. *)
Lemma Peek_len_cap (b : bufio.Reader) (n : nat) s e b' :
  bufio.Peek b n = Return (s, e, b') -> bufio.len s <= bufio.cap s.
Proof.
  unfold bufio.Peek.
  destruct (bufio.peek_loop _ b n) as [b1| |]; simpl; try discriminate.
  assert (Hbuf : forall a lo hi s0,
             bufio.slice_buf a lo hi = Return s0 -> bufio.len s0 <= bufio.cap s0).
  { intros a lo hi s0. unfold bufio.slice_buf.
    destruct ((lo <=? hi) && (hi <=? length a)) eqn:Hin; [|discriminate].
    intros [= <-]. simpl.
    apply andb_prop in Hin. destruct Hin as [_ Hhi]. apply Nat.leb_le in Hhi. lia. }
  destruct (length (bufio.buf b1) <? n); [|destruct (bufio.w b1 - bufio.r b1 <? n)];
    simpl;
    match goal with
    | |- context [bufio.slice_buf ?a ?lo ?hi] =>
        destruct (bufio.slice_buf a lo hi) as [s0| |] eqn:Hs; simpl; try discriminate
    end;
    intros [= <- _ _]; exact (Hbuf _ _ _ _ Hs).
Qed.

(** X10: whatever was read from the reader before, once [Peek] returns 12
    bytes or more the two tests of [Read] look at peeked bytes only: [Read]
    does not panic of its own and decides by the first 5 and the first 12
    peeked bytes. *)
Lemma Read_enough_peeked parseVersion1 parseVersion2 (reader : bufio.Reader) :
  12 <= length (peeked reader) ->
  Read parseVersion1 parseVersion2 reader
  = if bytes_Equal (firstn 5 (peeked reader)) SIGV1
    then parseVersion1 (after_Peek reader)
    else if bytes_Equal (firstn 12 (peeked reader)) SIGV2
         then parseVersion2 (after_Peek reader)
         else Return (None, Some ErrNoProxyProtocol, after_Peek reader).
Proof.
  unfold peeked, after_Peek, Read.
  destruct (bufio.Peek reader 13) as [[[s e] b']| |] eqn:Hpeek;
    try (intros H; simpl in H; lia).
  intros Hlen.
  assert (Hcap := Peek_len_cap _ _ _ _ _ Hpeek).
  assert (Hs : 12 <= bufio.len s).
  { unfold bufio.bytes_of in Hlen. rewrite length_firstn in Hlen. lia. }
  unfold bufio.slice_to. cbn [bind].
  replace (5 <=? bufio.cap s) with true by (symmetry; apply Nat.leb_le; lia).
  replace (12 <=? bufio.cap s) with true by (symmetry; apply Nat.leb_le; lia).
  unfold bufio.bytes_of.
  cbn [bind bufio.array bufio.offset bufio.len bufio.cap].
  rewrite !firstn_firstn.
  replace (Nat.min 5 (bufio.len s)) with 5 by lia.
  replace (Nat.min 12 (bufio.len s)) with 12 by lia.
  reflexivity.
Qed.

(** ** [Read] on a stream read from its start *)

Lemma NewReaderSize_13 (size : nat) : 13 <= Nat.max size bufio.minReadBufferSize.
Proof.
  unfold bufio.minReadBufferSize. lia.
Qed.

Lemma Read_NewReaderSize parseVersion1 parseVersion2 (rd : bufio.io_Reader) (size : nat) :
  let reader := bufio.NewReaderSize rd size in
  Read parseVersion1 parseVersion2 reader
  = if bytes_Equal (firstn 5 (peeked reader)) SIGV1
    then parseVersion1 (after_Peek reader)
    else if bytes_Equal (firstn 12 (peeked reader)) SIGV2
         then parseVersion2 (after_Peek reader)
         else Return (None, Some ErrNoProxyProtocol, after_Peek reader).
Proof.
  intros reader.
  exact (Read_unconsumed parseVersion1 parseVersion2 _ _ reader
           (NewReaderSize_unconsumed rd size) (NewReaderSize_13 size)).
Qed.







(** ** Readers that have been read from before

    The theorems above speak of a stream read from its start.  [Read] does
    not look at the error of [Peek] and slices the peeked bytes up to the
    capacity of the buffer, so that on a reader that was used before it may
    see bytes of the buffer that are not part of the stream any more, and may
    run out of the buffer. *)

(** Five bytes "PROXY" were consumed, the two bytes "PR" are left: [fill]
    slides them to the front of the buffer, before the old "OXY", and [Read]
    finds the version 1 signature in a stream that holds "PR" only. *)
Example Read_sees_consumed_bytes :
  let reader :=
    {| bufio.buf := list_byte_of_string "PROXYPR" ++ repeat x00 9;
       bufio.rd := []; bufio.r := 5; bufio.w := 7; bufio.err := None |} in
  bufio.unread reader = list_byte_of_string "PR"
  /\ peeked reader = list_byte_of_string "PR"
  /\ forall parseVersion1 parseVersion2,
       Read parseVersion1 parseVersion2 reader = parseVersion1 (after_Peek reader).
Proof.
  repeat split.
Qed.

(** A buffer of 16 bytes that was filled along with the end of the stream,
    and of which 14 bytes were consumed: [Peek] does not slide the 2 bytes
    left, the slice it returns has capacity 2, and [signature[:5]] is out of
    range. *)
Example Read_panics_at_end_of_buffer :
  let reader :=
    {| bufio.buf := list_byte_of_string "0123456789abcdGE";
       bufio.rd := []; bufio.r := 14; bufio.w := 16; bufio.err := Some io_EOF |} in
  peeked reader = list_byte_of_string "GE"
  /\ forall parseVersion1 parseVersion2,
       Read parseVersion1 parseVersion2 reader = Panic.
Proof.
  repeat split.
Qed.

(** C3 fails on the code: the stream of [reader_after_PROXY] has the two
    bytes "PR" left, [Peek] returns those two bytes, and they begin with
    neither signature; yet [Read] does not return [ErrNoProxyProtocol]: it
    finds "PROXY" in the buffer, where [fill] has slid "PR" in front of the
    consumed "OXY", and hands the reader to the version 1 parser, whatever
    that parser is.  The comment of [Read] promises that the reader is left
    alone when the signature is not present. *)
Theorem Read_no_signature_fails_on_used_reader :
  let reader := reader_after_PROXY in
  reader_ok reader
  /\ bufio.unread reader = list_byte_of_string "PR"
  /\ peeked reader = list_byte_of_string "PR"
  /\ firstn 5 (peeked reader) <> SIGV1
  /\ firstn 12 (peeked reader) <> SIGV2
  /\ (forall parseVersion1 parseVersion2,
         Read parseVersion1 parseVersion2 reader = parseVersion1 (after_Peek reader))
  /\ ~ (forall parseVersion1 parseVersion2,
          exists reader',
            Read parseVersion1 parseVersion2 reader
            = Return (None, Some ErrNoProxyProtocol, reader')).
Proof.
  intros reader.
  assert (Hv1 : forall pv1 pv2, Read pv1 pv2 reader = pv1 (after_Peek reader))
    by (intros pv1 pv2; reflexivity).
  split; [unfold reader_ok; simpl; lia|].
  split; [reflexivity|]. split; [reflexivity|].
  split; [discriminate|]. split; [discriminate|]. split; [exact Hv1|].
  intros H. destruct (H (fun _ => Panic) (fun _ => Panic)) as [reader' Hr].
  rewrite Hv1 in Hr. discriminate Hr.
Qed.

(** C8 fails on the code: the stream of [reader_after_SIGV2] has the two
    bytes CR LF left and [Peek] returns those two bytes, so that the first 12
    peeked bytes are not the version 2 signature; yet [Read] classifies the
    stream as version 2 and hands the reader to the version 2 parser,
    whatever that parser is: [signature[:12]] reaches into the buffer, where
    [fill] has slid CR LF in front of the consumed rest of the signature. *)
Theorem Read_dispatch_fails_on_used_reader :
  let reader := reader_after_SIGV2 in
  reader_ok reader
  /\ bufio.unread reader = [x0d; x0a]
  /\ peeked reader = [x0d; x0a]
  /\ firstn 12 (peeked reader)
     <> [x0d; x0a; x0d; x0a; x00; x0d; x0a; x51; x55; x49; x54; x0a]
  /\ (forall parseVersion1 parseVersion2,
         Read parseVersion1 parseVersion2 reader = parseVersion2 (after_Peek reader))
  /\ ~ ((forall parseVersion1 parseVersion2,
           Read parseVersion1 parseVersion2 reader = parseVersion2 (after_Peek reader))
        <-> firstn 5 (peeked reader) <> [x50; x52; x4f; x58; x59]
            /\ firstn 12 (peeked reader)
               = [x0d; x0a; x0d; x0a; x00; x0d; x0a; x51; x55; x49; x54; x0a]).
Proof.
  intros reader.
  assert (Hv2 : forall pv1 pv2, Read pv1 pv2 reader = pv2 (after_Peek reader))
    by (intros pv1 pv2; reflexivity).
  split; [unfold reader_ok; simpl; lia|].
  split; [reflexivity|]. split; [reflexivity|].
  split; [discriminate|]. split; [exact Hv2|].
  intros [Hto _]. destruct (Hto Hv2) as [_ H12]. discriminate H12.
Qed.

(** * Further properties *)

(** ** Equality of headers, continued *)

Lemma same_endpoints_trans (a b c : Header) :
  same_endpoints a b -> same_endpoints b c -> same_endpoints a c.
Proof.
  unfold same_endpoints. intuition congruence.
Qed.

(** X1: [EqualTo] is transitive through a middle header whose command is not
    LOCAL: if [a] is equal to [b] and [b] to [c], then [a] is equal to [c]. *)
Theorem EqualTo_trans (a b c : Header) :
  Command b <> LOCAL ->
  EqualTo (Some a) (Some b) = true ->
  EqualTo (Some b) (Some c) = true ->
  EqualTo (Some a) (Some c) = true.
Proof.
  intros Hb Hab Hbc.
  destruct (IsLocal (Command a)) eqn:Ha.
  - now apply EqualTo_receiver_local.
  - apply IsLocal_not_LOCAL in Hb.
    apply (EqualTo_fields a b Ha) in Hab. apply (EqualTo_fields b c Hb) in Hbc.
    apply (EqualTo_fields a c Ha). now apply same_endpoints_trans with b.
Qed.

Lemma EqualTo_trans_witness :
  EqualTo (Some (with_Version x01 tcp4_header))
          (Some (with_Command x2f tcp4_header)) = true.
Proof.
  apply (EqualTo_trans (with_Version x01 tcp4_header) tcp4_header
                       (with_Command x2f tcp4_header)).
  - discriminate.
  - reflexivity.
  - reflexivity.
Defined.

(** X2: the two directions of [EqualTo] disagree on a pair of non-nil headers
    exactly when one of the two has command LOCAL, the other has not, and the
    five compared fields do not all agree. *)
Theorem EqualTo_asymmetric_iff (a b : Header) :
  EqualTo (Some a) (Some b) <> EqualTo (Some b) (Some a)
  <-> IsLocal (Command a) <> IsLocal (Command b) /\ ~ same_endpoints a b.
Proof.
  destruct (IsLocal (Command a)) eqn:Ha, (IsLocal (Command b)) eqn:Hb.
  - rewrite !EqualTo_receiver_local by assumption. intuition congruence.
  - rewrite (EqualTo_receiver_local a b Ha).
    destruct (EqualTo (Some b) (Some a)) eqn:E.
    + apply (EqualTo_fields b a Hb) in E. apply same_endpoints_sym in E.
      intuition congruence.
    + split; [intros _|discriminate]. split; [discriminate|].
      intros Hs. apply same_endpoints_sym in Hs.
      apply (EqualTo_fields b a Hb) in Hs. congruence.
  - rewrite (EqualTo_receiver_local b a Hb).
    destruct (EqualTo (Some a) (Some b)) eqn:E.
    + apply (EqualTo_fields a b Ha) in E. intuition congruence.
    + split; [intros _|discriminate]. split; [discriminate|].
      intros Hs. apply (EqualTo_fields a b Ha) in Hs. congruence.
  - split; [|intros [H _]; congruence].
    intros H. exfalso. apply H.
    destruct (EqualTo (Some a) (Some b)) eqn:E1, (EqualTo (Some b) (Some a)) eqn:E2;
      try reflexivity.
    + apply (EqualTo_fields a b Ha) in E1. apply same_endpoints_sym in E1.
      apply (EqualTo_fields b a Hb) in E1. congruence.
    + apply (EqualTo_fields b a Hb) in E2. apply same_endpoints_sym in E2.
      apply (EqualTo_fields a b Ha) in E2. congruence.
Qed.

(** ** The textual form of IPv4 addresses *)

Lemma read_number_uitoa (x : byte) (rest : string) :
  read_number (net.uitoa (Byte.to_N x) ++ String "." rest) 0 = (Byte.to_N x, String "." rest).
Proof.
  destruct x; reflexivity.
Qed.

Lemma read_number_uitoa_end (x : byte) :
  read_number (net.uitoa (Byte.to_N x)) 0 = (Byte.to_N x, EmptyString).
Proof.
  destruct x; reflexivity.
Qed.

Lemma read_quad_dotted (a b c d : byte) :
  read_quad (net.dotted [a; b; c; d])
  = [Byte.to_N a; Byte.to_N b; Byte.to_N c; Byte.to_N d].
Proof.
  unfold read_quad, net.dotted. cbn [nth].
  change (fun x : string => ("." ++ x)%string) with (String ".") in *.
  change (String.append "."%string) with (String "."%char).
  rewrite read_number_uitoa. cbn [after_first].
  rewrite read_number_uitoa. cbn [after_first].
  rewrite read_number_uitoa. cbn [after_first].
  rewrite read_number_uitoa_end. reflexivity.
Qed.

Lemma Byte_to_N_inj (x y : byte) : Byte.to_N x = Byte.to_N y -> x = y.
Proof.
  intros H. assert (Hs : Some x = Some y) by now rewrite <- !Byte.of_to_N, H.
  now injection Hs.
Qed.

(** The dotted form tells the four bytes. *)
Lemma dotted_inj (p q : list byte) :
  length p = 4 -> length q = 4 -> net.dotted p = net.dotted q -> p = q.
Proof.
  destruct p as [|a [|b [|c [|d [|? ?]]]]]; try discriminate.
  destruct q as [|a' [|b' [|c' [|d' [|? ?]]]]]; try discriminate.
  intros _ _ H. apply (f_equal read_quad) in H.
  rewrite !read_quad_dotted in H. injection H as Ha Hb Hc Hd.
  apply Byte_to_N_inj in Ha, Hb, Hc, Hd. congruence.
Qed.

Lemma IP_String_To4 (ip : net.IP) :
  length (net.To4 ip) = 4 -> net.IP_String ip = net.dotted (net.To4 ip).
Proof.
  unfold net.IP_String, net.To4, net.IPv4len, net.IPv6len.
  destruct (length ip =? 4) eqn:H4.
  - apply Nat.eqb_eq in H4. intros _.
    replace (length ip =? 0) with false by (symmetry; apply Nat.eqb_neq; lia).
    cbn [negb andb]. now rewrite H4.
  - destruct (length ip =? 16) eqn:H16.
    + apply Nat.eqb_eq in H16.
      replace (length ip =? 0) with false by (symmetry; apply Nat.eqb_neq; lia).
      cbn [negb andb].
      destruct (net.isZeros (firstn 10 ip) && Byte.eqb (nth 10 ip x00) xff
                && Byte.eqb (nth 11 ip x00) xff); cbn [andb].
      * intros Hl. now rewrite Hl.
      * discriminate.
    + cbn [andb]. discriminate.
Qed.

(** X3: for a receiver whose command is not LOCAL and addresses that are
    IPv4 addresses on both sides (held in 4 bytes or as IPv4-mapped 16
    bytes), [EqualTo] is true exactly when the transport protocols, the two
    pairs of IPv4 addresses, byte for byte, and the two pairs of ports
    agree: the textual comparison neither confuses two IPv4 addresses nor
    tells the two representations of one address apart. *)
Theorem EqualTo_IPv4_exact (h q : Header) :
  Command h <> LOCAL ->
  length (net.To4 (SourceAddress h)) = 4 ->
  length (net.To4 (SourceAddress q)) = 4 ->
  length (net.To4 (DestinationAddress h)) = 4 ->
  length (net.To4 (DestinationAddress q)) = 4 ->
  EqualTo (Some h) (Some q) = true
  <-> TransportProtocol h = TransportProtocol q
      /\ net.To4 (SourceAddress h) = net.To4 (SourceAddress q)
      /\ net.To4 (DestinationAddress h) = net.To4 (DestinationAddress q)
      /\ SourcePort h = SourcePort q
      /\ DestinationPort h = DestinationPort q.
Proof.
  intros Hc Hsh Hsq Hdh Hdq. apply IsLocal_not_LOCAL in Hc.
  rewrite (EqualTo_fields h q Hc). unfold same_endpoints.
  rewrite !IP_String_To4 by assumption.
  split; intros (Ht & Hs & Hd & Hp1 & Hp2).
  - repeat split; trivial; now apply dotted_inj.
  - rewrite Hs, Hd. tauto.
Qed.

Lemma EqualTo_IPv4_exact_witness :
  EqualTo (Some tcp4_header)
          (Some {| Version := x01; Command := PROXY; TransportProtocol := TCPv4;
                   SourceAddress := repeat x00 10 ++ [xff; xff; xc0; xa8; x00; x01];
                   DestinationAddress := [xc0; xa8; x00; x0b];
                   SourcePort := 56324; DestinationPort := 443 |}) = true.
Proof.
  apply (EqualTo_IPv4_exact tcp4_header
           {| Version := x01; Command := PROXY; TransportProtocol := TCPv4;
              SourceAddress := repeat x00 10 ++ [xff; xff; xc0; xa8; x00; x01];
              DestinationAddress := [xc0; xa8; x00; x0b];
              SourcePort := 56324; DestinationPort := 443 |});
    try discriminate; try reflexivity.
  repeat split.
Defined.

(** ** Encoding, continued *)

(** X4: [WriteTo] picks the encoder by the version alone: whatever the two
    encoders are, its result is that of [writeVersion1] on the header and the
    sink exactly when the version is 1, and that of [writeVersion2] exactly
    when the version is 2; it adds nothing of its own to what the encoder
    returns. *)
Theorem WriteTo_dispatches_on_Version (h : Header) (w : Writer) :
  ((forall writeVersion1 writeVersion2,
       WriteTo writeVersion1 writeVersion2 (Some h) w = writeVersion1 h w)
   <-> Version h = x01)
  /\ ((forall writeVersion1 writeVersion2,
          WriteTo writeVersion1 writeVersion2 (Some h) w = writeVersion2 h w)
      <-> Version h = x02).
Proof.
  unfold WriteTo. split; split.
  - intros H. specialize (H (fun _ _ => Panic) (fun _ _ => OutOfFuel)).
    destruct (Byte.eqb (Version h) x01) eqn:E1; [now apply Byte_eqb_eq|].
    destruct (Byte.eqb (Version h) x02); discriminate H.
  - intros H wv1 wv2. apply Byte_eqb_eq in H. now rewrite H.
  - intros H. specialize (H (fun _ _ => Panic) (fun _ _ => OutOfFuel)).
    destruct (Byte.eqb (Version h) x01) eqn:E1; [discriminate H|].
    destruct (Byte.eqb (Version h) x02) eqn:E2; [now apply Byte_eqb_eq|discriminate H].
  - intros H wv1 wv2. rewrite H. reflexivity.
Qed.

(** ** The buffered reader in any state *)

Lemma set_err_fields (b : bufio.Reader) (e : option error) :
  reader_ok (bufio.set_err b e) = reader_ok b
  /\ bufio.unread (bufio.set_err b e) = bufio.unread b
  /\ buffered (bufio.set_err b e) = buffered b.
Proof.
  repeat split.
Qed.

Lemma read_into_fields (b : bufio.Reader) n e b' :
  bufio.read_into b = (n, e, b') ->
  bufio.w b' = bufio.w b + n /\ bufio.err b' = bufio.err b /\ bufio.r b' = bufio.r b.
Proof.
  unfold bufio.read_into.
  destruct (bufio.io_Read _ _) as [[bs e0] rd'].
  intros [= <- <- <-]. repeat split.
Qed.

Lemma read_into_ok (b : bufio.Reader) n e b' :
  reader_ok b -> bufio.r b = 0 -> bufio.w b < length (bufio.buf b) ->
  bufio.read_into b = (n, e, b') ->
  reader_ok b' /\ bufio.r b' = 0
  /\ length (bufio.buf b') = length (bufio.buf b)
  /\ bufio.unread b' = bufio.unread b.
Proof.
  intros [Hrw Hw] Hr Hroom. unfold bufio.read_into.
  destruct (bufio.io_Read (bufio.rd b) (length (bufio.buf b) - bufio.w b))
    as [[bs e0] rd'] eqn:Hread.
  apply io_Read_spec in Hread. destruct Hread as [Hfit Hbytes].
  intros [= <- <- <-].
  assert (Hfirst : length (firstn (bufio.w b) (bufio.buf b)) = bufio.w b)
    by (rewrite length_firstn; lia).
  assert (Hlen : length (firstn (bufio.w b) (bufio.buf b) ++ bs
                           ++ skipn (bufio.w b + length bs) (bufio.buf b))
                 = length (bufio.buf b)).
  { rewrite !length_app, Hfirst, length_skipn. lia. }
  unfold reader_ok, bufio.unread. cbn [bufio.buf bufio.rd bufio.r bufio.w bufio.err].
  rewrite Hlen, Hr, !Nat.sub_0_r, !skipn_0.
  repeat split; try lia.
  rewrite (firstn_app_exact _ _ _ _ Hfirst).
  rewrite <- (Nat.add_0_r (length bs)) at 1.
  rewrite (firstn_app_exact _ _ _ _ eq_refl), firstn_0, app_nil_r.
  rewrite <- Hbytes. now rewrite app_assoc.
Qed.

Lemma fill_loop_ok (i : nat) (b : bufio.Reader) :
  reader_ok b -> bufio.r b = 0 -> bufio.w b < length (bufio.buf b) ->
  reader_ok (bufio.fill_loop i b) /\ bufio.r (bufio.fill_loop i b) = 0
  /\ length (bufio.buf (bufio.fill_loop i b)) = length (bufio.buf b)
  /\ bufio.unread (bufio.fill_loop i b) = bufio.unread b
  /\ (bufio.err (bufio.fill_loop i b) <> None
      \/ bufio.w b < bufio.w (bufio.fill_loop i b)).
Proof.
  revert b. induction i as [|i IH]; intros b Hok Hr Hroom; cbn [bufio.fill_loop].
  - split; [exact Hok|]. split; [exact Hr|]. split; [reflexivity|].
    split; [reflexivity|]. left. discriminate.
  - destruct (bufio.read_into b) as [[n e] b'] eqn:Hread.
    destruct (read_into_ok b n e b' Hok Hr Hroom Hread) as (Hok' & Hr' & Hlen' & Hun').
    destruct (read_into_fields b n e b' Hread) as (Hw' & _ & _).
    destruct e as [e|].
    + split; [exact Hok'|]. split; [exact Hr'|]. split; [exact Hlen'|].
      split; [exact Hun'|]. left. discriminate.
    + destruct (0 <? n) eqn:Hn.
      * apply Nat.ltb_lt in Hn.
        split; [exact Hok'|]. split; [exact Hr'|]. split; [exact Hlen'|].
        split; [exact Hun'|]. right. lia.
      * apply Nat.ltb_ge in Hn.
        assert (Hroom' : bufio.w b' < length (bufio.buf b')) by lia.
        destruct (IH b' Hok' Hr' Hroom') as (H1 & H2 & H3 & H4 & H5).
        split; [exact H1|]. split; [exact H2|]. split; [congruence|].
        split; [congruence|]. destruct H5; [now left | right; lia].
Qed.

Lemma fill_ok (b : bufio.Reader) :
  reader_ok b -> bufio.w b - bufio.r b < length (bufio.buf b) ->
  exists b', bufio.fill b = Return b' /\ reader_ok b' /\ bufio.r b' = 0
             /\ length (bufio.buf b') = length (bufio.buf b)
             /\ bufio.unread b' = bufio.unread b
             /\ (bufio.err b' <> None \/ bufio.w b - bufio.r b < bufio.w b').
Proof.
  intros [Hrw Hw] Hroom. unfold bufio.fill.
  set (src := firstn (bufio.w b - bufio.r b) (skipn (bufio.r b) (bufio.buf b))).
  assert (Hsrc : length src = bufio.w b - bufio.r b).
  { unfold src. rewrite length_firstn, length_skipn. lia. }
  set (slid := {| bufio.buf := bufio.copy (bufio.buf b) src; bufio.rd := bufio.rd b;
                  bufio.r := 0; bufio.w := bufio.w b - bufio.r b;
                  bufio.err := bufio.err b |}).
  assert (Hcopy : bufio.copy (bufio.buf b) src
                  = src ++ skipn (bufio.w b - bufio.r b) (bufio.buf b)).
  { unfold bufio.copy. rewrite Hsrc, firstn_all2 by lia. reflexivity. }
  assert (Hslid : reader_ok slid /\ bufio.r slid = 0
                  /\ length (bufio.buf slid) = length (bufio.buf b)
                  /\ bufio.unread slid = bufio.unread b
                  /\ bufio.w slid = bufio.w b - bufio.r b).
  { unfold reader_ok, bufio.unread, slid.
    cbn [bufio.buf bufio.rd bufio.r bufio.w bufio.err].
    rewrite Hcopy, length_app, Hsrc, length_skipn, Nat.sub_0_r, skipn_0.
    repeat split; try lia.
    rewrite <- (Nat.add_0_r (bufio.w b - bufio.r b)) at 1.
    rewrite (firstn_app_exact _ _ _ _ Hsrc), firstn_0, app_nil_r. reflexivity. }
  assert (Hgoal : forall b0,
             reader_ok b0 -> bufio.r b0 = 0 ->
             length (bufio.buf b0) = length (bufio.buf b) ->
             bufio.unread b0 = bufio.unread b ->
             bufio.w b0 = bufio.w b - bufio.r b ->
             exists b', (if length (bufio.buf b0) <=? bufio.w b0 then Panic
                         else Return (bufio.fill_loop bufio.maxConsecutiveEmptyReads b0))
                        = Return b'
                        /\ reader_ok b' /\ bufio.r b' = 0
                        /\ length (bufio.buf b') = length (bufio.buf b)
                        /\ bufio.unread b' = bufio.unread b
                        /\ (bufio.err b' <> None \/ bufio.w b - bufio.r b < bufio.w b')).
  { intros b0 Hok0 Hr0 Hlen0 Hun0 Hw0.
    replace (length (bufio.buf b0) <=? bufio.w b0) with false
      by (symmetry; apply Nat.leb_gt; lia).
    eexists. split; [reflexivity|].
    destruct (fill_loop_ok bufio.maxConsecutiveEmptyReads b0 Hok0 Hr0 ltac:(lia))
      as (H1 & H2 & H3 & H4 & H5).
    split; [exact H1|]. split; [exact H2|]. split; [congruence|].
    split; [congruence|]. destruct H5; [now left | right; lia]. }
  destruct (0 <? bufio.r b) eqn:Hpos.
  - destruct Hslid as (H1 & H2 & H3 & H4 & H5). now apply Hgoal.
  - apply Nat.ltb_ge in Hpos. apply Hgoal; try reflexivity; try lia.
    split; lia.
Qed.

Lemma peek_loop_ok (fuel : nat) :
  forall (b : bufio.Reader) (n : nat),
    reader_ok b ->
    length (bufio.buf b) - (bufio.w b - bufio.r b) < fuel ->
    exists b', bufio.peek_loop fuel b n = Return b' /\ reader_ok b'
               /\ length (bufio.buf b') = length (bufio.buf b)
               /\ bufio.unread b' = bufio.unread b
               /\ bufio.peek_more b' n = false.
Proof.
  induction fuel as [|fuel IH]; intros b n Hok Hfuel; [lia|].
  destruct (bufio.peek_more b n) eqn:Hmore.
  - assert (Hroom : bufio.w b - bufio.r b < length (bufio.buf b)).
    { unfold bufio.peek_more in Hmore.
      apply andb_prop in Hmore. destruct Hmore as [Hmore _].
      apply andb_prop in Hmore. destruct Hmore as [_ Hmore].
      now apply Nat.ltb_lt in Hmore. }
    destruct (fill_ok b Hok Hroom) as (b1 & Hfill & Hok1 & Hr1 & Hlen1 & Hun1 & Hprog).
    cbn [bufio.peek_loop]. rewrite Hmore, Hfill. cbn [bind].
    destruct Hprog as [Herr | Hgrow].
    + exists b1. rewrite peek_loop_stop by now apply peek_more_err.
      split; [reflexivity|]. split; [exact Hok1|]. split; [exact Hlen1|].
      split; [exact Hun1|]. now apply peek_more_err.
    + destruct (IH b1 n Hok1) as (b' & H1 & H2 & H3 & H4 & H5).
      { rewrite Hr1, Nat.sub_0_r, Hlen1. lia. }
      exists b'. split; [exact H1|]. split; [exact H2|]. split; [congruence|].
      split; [congruence|]. exact H5.
  - exists b. rewrite peek_loop_stop by assumption.
    split; [reflexivity|]. split; [exact Hok|]. split; [reflexivity|].
    split; [reflexivity|]. exact Hmore.
Qed.

(** [Peek] on a reader in any state: it returns, the bytes it returns are
    the front of the unread part of the buffer, and the reader has the same
    bytes to deliver as before. *)
Lemma Peek_ok (b : bufio.Reader) (n : nat) :
  reader_ok b ->
  exists s e b',
    bufio.Peek b n = Return (s, e, b') /\ reader_ok b'
    /\ bufio.unread b' = bufio.unread b
    /\ bufio.bytes_of s = firstn n (buffered b').
Proof.
  intros Hok.
  destruct (peek_loop_ok (S (length (bufio.buf b))) b n Hok ltac:(lia))
    as (b1 & Hloop & [Hrw Hw] & Hlen & Hun & _).
  unfold bufio.Peek. rewrite Hloop. cbn [bind].
  assert (Hslice : forall hi, bufio.r b1 <= hi -> hi <= bufio.w b1 ->
             bufio.slice_buf (bufio.buf b1) (bufio.r b1) hi
             = Return {| bufio.array := bufio.buf b1; bufio.offset := bufio.r b1;
                         bufio.len := hi - bufio.r b1;
                         bufio.cap := length (bufio.buf b1) - bufio.r b1 |}).
  { intros hi H1 H2. unfold bufio.slice_buf.
    replace (bufio.r b1 <=? hi) with true by (symmetry; apply Nat.leb_le; lia).
    replace (hi <=? length (bufio.buf b1)) with true
      by (symmetry; apply Nat.leb_le; lia).
    reflexivity. }
  assert (Hbuf : length (buffered b1) = bufio.w b1 - bufio.r b1).
  { unfold buffered. rewrite length_firstn, length_skipn. lia. }
  destruct (length (bufio.buf b1) <? n) eqn:Hsmall.
  - apply Nat.ltb_lt in Hsmall.
    rewrite Hslice by lia. cbn [bind].
    eexists _, _, b1. split; [reflexivity|]. repeat split; trivial.
    unfold bufio.bytes_of. cbn [bufio.array bufio.offset bufio.len].
    fold (buffered b1). rewrite firstn_all2 by lia. reflexivity.
  - destruct (bufio.w b1 - bufio.r b1 <? n) eqn:Hshort.
    + apply Nat.ltb_lt in Hshort. unfold bufio.readErr.
      cbn [bufio.set_err bufio.buf bufio.r bufio.w].
      rewrite Hslice by lia. cbn [bind].
      eexists _, _, (bufio.set_err b1 None). split; [reflexivity|].
      repeat split; trivial.
      unfold bufio.bytes_of, buffered.
      cbn [bufio.set_err bufio.array bufio.offset bufio.len bufio.buf bufio.r bufio.w].
      replace (bufio.r b1 + (bufio.w b1 - bufio.r b1) - bufio.r b1)
        with (bufio.w b1 - bufio.r b1) by lia.
      fold (buffered b1). rewrite (firstn_all2 (n := n)) by lia. reflexivity.
    + apply Nat.ltb_ge in Hshort.
      rewrite Hslice by lia. cbn [bind].
      eexists _, _, b1. split; [reflexivity|]. repeat split; trivial.
      unfold bufio.bytes_of, buffered. cbn [bufio.array bufio.offset bufio.len].
      rewrite firstn_firstn. f_equal. lia.
Qed.

(** X6: on a buffered reader in any state that [bufio] keeps (read position
    not past the write position, within the buffer), whatever was read from
    it before: the [Peek] of [Read] returns; the reader that [Read] then hands
    to a parser or returns is again such a reader and still has every byte to
    deliver that the reader had before the call; and the peeked bytes are the
    front of those bytes.  The detection itself consumes nothing, also when it
    finds a signature. *)
Theorem Read_detection_consumes_nothing
    (parseVersion1 parseVersion2 :
       bufio.Reader -> result (option Header * option error * bufio.Reader))
    (reader : bufio.Reader) :
  reader_ok reader ->
  (exists signature e, bufio.Peek reader 13 = Return (signature, e, after_Peek reader))
  /\ reader_ok (after_Peek reader)
  /\ bufio.unread (after_Peek reader) = bufio.unread reader
  /\ (exists rest, bufio.unread reader = peeked reader ++ rest)
  /\ (Read parseVersion1 parseVersion2 reader = Panic
      \/ Read parseVersion1 parseVersion2 reader = parseVersion1 (after_Peek reader)
      \/ Read parseVersion1 parseVersion2 reader = parseVersion2 (after_Peek reader)
      \/ Read parseVersion1 parseVersion2 reader
         = Return (None, Some ErrNoProxyProtocol, after_Peek reader)).
Proof.
  intros Hok.
  destruct (Peek_ok reader 13 Hok) as (s & e & b' & Hpeek & Hok' & Hun & Hbytes).
  unfold after_Peek, peeked, Read. rewrite Hpeek. cbn [bind].
  split; [now exists s, e|]. split; [exact Hok'|]. split; [exact Hun|]. split.
  - exists (skipn 13 (buffered b') ++ bufio.stream_bytes (bufio.rd b')).
    rewrite <- Hun, Hbytes, app_assoc, firstn_skipn. reflexivity.
  - unfold bufio.slice_to.
    destruct (5 <=? bufio.cap s); cbn [bind]; [|now left].
    destruct (bytes_Equal _ SIGV1); [tauto|].
    destruct (12 <=? bufio.cap s); cbn [bind]; [|now left].
    destruct (bytes_Equal _ SIGV2); tauto.
Qed.

Lemma Read_detection_consumes_nothing_witness :
  bufio.unread
    (after_Peek {| bufio.buf := list_byte_of_string "PROXY TCP4 1.2.3";
                   bufio.rd := [(list_byte_of_string ".4 5.6.7.8 1 2", None)];
                   bufio.r := 6; bufio.w := 16; bufio.err := None |})
  = list_byte_of_string "TCP4 1.2.3.4 5.6.7.8 1 2".
Proof.
  rewrite (proj1 (proj2 (proj2 (Read_detection_consumes_nothing
             (fun _ => Panic) (fun _ => Panic)
             {| bufio.buf := list_byte_of_string "PROXY TCP4 1.2.3";
                bufio.rd := [(list_byte_of_string ".4 5.6.7.8 1 2", None)];
                bufio.r := 6; bufio.w := 16; bufio.err := None |}
             ltac:(unfold reader_ok; simpl; lia))))).
  reflexivity.
Defined.

(** ** Detection on a reader that has bytes in its buffer *)

(** Once [Peek] has returned [n] bytes, a second [Peek] returns the same
    slice and leaves the reader as it is. *)
Lemma Peek_again (b : bufio.Reader) (n : nat) s e b' :
  bufio.Peek b n = Return (s, e, b') ->
  n <= length (bufio.bytes_of s) ->
  bufio.Peek b' n = Return (s, None, b').
Proof.
  unfold bufio.Peek at 1.
  destruct (bufio.peek_loop (S (length (bufio.buf b))) b n) as [b1| |];
    cbn [bind]; try discriminate.
  assert (Hlen : forall a lo hi s0,
             bufio.slice_buf a lo hi = Return s0 ->
             bufio.len s0 = hi - lo /\ hi <= length a /\ lo <= hi).
  { intros a lo hi s0. unfold bufio.slice_buf.
    destruct ((lo <=? hi) && (hi <=? length a)) eqn:Hin; [|discriminate].
    intros [= <-]. apply andb_prop in Hin. destruct Hin as [H1 H2].
    apply Nat.leb_le in H1, H2. cbn [bufio.len]. lia. }
  assert (Hbytes : forall s0 : bufio.slice,
             length (bufio.bytes_of s0) <= bufio.len s0).
  { intros s0. apply firstn_le_length. }
  destruct (length (bufio.buf b1) <? n) eqn:Hsmall.
  { apply Nat.ltb_lt in Hsmall.
    destruct (bufio.slice_buf _ _ _) as [s0| |] eqn:Hs; cbn [bind]; try discriminate.
    intros [= <- _ _] Hn. specialize (Hbytes s0).
    apply Hlen in Hs. lia. }
  destruct (bufio.w b1 - bufio.r b1 <? n) eqn:Hshort.
  { apply Nat.ltb_lt in Hshort. unfold bufio.readErr.
    cbn [bufio.set_err bufio.buf bufio.r bufio.w].
    destruct (bufio.slice_buf _ _ _) as [s0| |] eqn:Hs; cbn [bind]; try discriminate.
    intros [= <- _ _] Hn. specialize (Hbytes s0).
    apply Hlen in Hs. lia. }
  destruct (bufio.slice_buf _ _ _) as [s0| |] eqn:Hs; cbn [bind]; try discriminate.
  intros [= <- _ <-] _.
  unfold bufio.Peek.
  rewrite peek_loop_stop.
  - cbn [bind]. rewrite Hsmall, Hshort, Hs. reflexivity.
  - unfold bufio.peek_more. now rewrite Hshort.
Qed.

(** X5: when 13 bytes were peeked, whatever the state of the reader, [Read]
    can be repeated: on the reader that the first call handed on, a second
    call takes the same decision and hands on the same reader.  In particular
    a caller that got [ErrNoProxyProtocol] gets it again, with the reader
    unchanged. *)
Theorem Read_repeatable
    (parseVersion1 parseVersion2 :
       bufio.Reader -> result (option Header * option error * bufio.Reader))
    (reader : bufio.Reader) :
  13 <= length (peeked reader) ->
  after_Peek (after_Peek reader) = after_Peek reader
  /\ Read parseVersion1 parseVersion2 (after_Peek reader)
     = Read parseVersion1 parseVersion2 reader.
Proof.
  unfold peeked, after_Peek at 2 3 4.
  destruct (bufio.Peek reader 13) as [[[s e] b']| |] eqn:Hpeek;
    try (intros H; simpl in H; lia).
  intros Hlen. assert (Hagain := Peek_again _ _ _ _ _ Hpeek Hlen).
  unfold after_Peek, Read. rewrite Hagain, Hpeek. split; reflexivity.
Qed.

Lemma Read_repeatable_witness :
  Read (fun b => Return (None, Some ErrInvalidAddress, b))
       (fun b => Return (None, Some ErrInvalidLength, b))
       (after_Peek (bufio.NewReader [(list_byte_of_string "GET / HTTP/1.1", None)]))
  = Return (None, Some ErrNoProxyProtocol,
            after_Peek (bufio.NewReader [(list_byte_of_string "GET / HTTP/1.1", None)])).
Proof.
  rewrite (proj2 (Read_repeatable
                    (fun b => Return (None, Some ErrInvalidAddress, b))
                    (fun b => Return (None, Some ErrInvalidLength, b))
                    (bufio.NewReader [(list_byte_of_string "GET / HTTP/1.1", None)])
                    ltac:(vm_compute; lia))).
  vm_compute. reflexivity.
Defined.

(** X9: the slice expressions of [Read] run out of the buffer when an error
    is pending on the reader, fewer than 13 bytes are buffered, and fewer than
    5 bytes of the buffer lie after the read position: [Peek] then returns the
    buffered bytes where they are, the slice has the capacity of what is left
    of the buffer, and [signature[:5]] panics. *)
Theorem Read_panics_when_buffer_ends
    (parseVersion1 parseVersion2 :
       bufio.Reader -> result (option Header * option error * bufio.Reader))
    (reader : bufio.Reader) :
  reader_ok reader ->
  bufio.err reader <> None ->
  bufio.w reader - bufio.r reader < 13 ->
  13 <= length (bufio.buf reader) ->
  length (bufio.buf reader) - bufio.r reader < 5 ->
  Read parseVersion1 parseVersion2 reader = Panic.
Proof.
  intros [Hrw Hw] Herr Hshort Hbuf Hcap.
  unfold Read, bufio.Peek.
  rewrite peek_loop_stop by now apply peek_more_err.
  cbn [bind].
  replace (length (bufio.buf reader) <? 13) with false
    by (symmetry; apply Nat.ltb_ge; lia).
  replace (bufio.w reader - bufio.r reader <? 13) with true
    by (symmetry; apply Nat.ltb_lt; lia).
  unfold bufio.readErr, bufio.slice_buf.
  cbn [bufio.set_err bufio.buf bufio.r bufio.w].
  replace (bufio.r reader <=? bufio.r reader + (bufio.w reader - bufio.r reader))
    with true by (symmetry; apply Nat.leb_le; lia).
  replace (bufio.r reader + (bufio.w reader - bufio.r reader)
           <=? length (bufio.buf reader))
    with true by (symmetry; apply Nat.leb_le; lia).
  cbn [andb bind]. unfold bufio.slice_to. cbn [bufio.cap].
  replace (5 <=? length (bufio.buf reader) - bufio.r reader) with false
    by (symmetry; apply Nat.leb_gt; lia).
  reflexivity.
Qed.

Lemma Read_panics_when_buffer_ends_witness :
  Read (fun b => Return (None, Some ErrInvalidAddress, b))
       (fun b => Return (None, Some ErrInvalidLength, b))
       {| bufio.buf := list_byte_of_string "0123456789abcdGE";
          bufio.rd := []; bufio.r := 14; bufio.w := 16; bufio.err := Some io_EOF |}
  = Panic.
Proof.
  apply (Read_panics_when_buffer_ends
           (fun b => Return (None, Some ErrInvalidAddress, b))
           (fun b => Return (None, Some ErrInvalidLength, b))
           {| bufio.buf := list_byte_of_string "0123456789abcdGE";
              bufio.rd := []; bufio.r := 14; bufio.w := 16;
              bufio.err := Some io_EOF |});
    try (unfold reader_ok; simpl; lia).
  discriminate.
Defined.

(** ** A read error during detection *)





(** ** A stream that arrives in several chunks *)









(** ** A used reader with enough bytes in its buffer *)

Lemma Read_enough_peeked_witness :
  Read (fun b => Return (None, Some ErrInvalidAddress, b))
       (fun b => Return (None, Some ErrInvalidLength, b))
       {| bufio.buf := list_byte_of_string "PROXYGET / HTTP/1.1 ";
          bufio.rd := []; bufio.r := 5; bufio.w := 19; bufio.err := Some io_EOF |}
  = Return (None, Some ErrNoProxyProtocol,
            {| bufio.buf := list_byte_of_string "PROXYGET / HTTP/1.1 ";
               bufio.rd := []; bufio.r := 5; bufio.w := 19; bufio.err := Some io_EOF |}).
Proof.
  rewrite (Read_enough_peeked
             (fun b => Return (None, Some ErrInvalidAddress, b))
             (fun b => Return (None, Some ErrInvalidLength, b))
             {| bufio.buf := list_byte_of_string "PROXYGET / HTTP/1.1 ";
                bufio.rd := []; bufio.r := 5; bufio.w := 19;
                bufio.err := Some io_EOF |}
             ltac:(vm_compute; lia)).
  reflexivity.
Defined.

(** ** What the parsers are handed *)

Lemma NewReaderSize_ok (rd : bufio.io_Reader) (size : nat) :
  reader_ok (bufio.NewReaderSize rd size).
Proof.
  unfold reader_ok. cbn [bufio.NewReaderSize bufio.r bufio.w]. lia.
Qed.

Lemma starts_with (sig p rest : list byte) :
  firstn (length sig) p = sig -> exists rest', p ++ rest = sig ++ rest'.
Proof.
  intros H. exists (skipn (length sig) p ++ rest).
  rewrite <- (firstn_skipn (length sig) p) at 1.
  rewrite H. symmetry. apply app_assoc.
Qed.

(** X11: on a stream read from its start, when [Read] calls a parser the
    signature has not been consumed: the reader that [parseVersion1] gets
    still has "PROXY" as its next 5 bytes to deliver, and the reader that
    [parseVersion2] gets the 12 bytes of the version 2 signature. *)
Theorem Read_hands_signature_to_parser
    (parseVersion1 parseVersion2 :
       bufio.Reader -> result (option Header * option error * bufio.Reader))
    (rd : bufio.io_Reader) (size : nat) :
  let reader := bufio.NewReaderSize rd size in
  (firstn 5 (peeked reader) = SIGV1 ->
   Read parseVersion1 parseVersion2 reader = parseVersion1 (after_Peek reader)
   /\ exists rest, bufio.unread (after_Peek reader) = SIGV1 ++ rest)
  /\ (firstn 5 (peeked reader) <> SIGV1 -> firstn 12 (peeked reader) = SIGV2 ->
      Read parseVersion1 parseVersion2 reader = parseVersion2 (after_Peek reader)
      /\ exists rest, bufio.unread (after_Peek reader) = SIGV2 ++ rest).
Proof.
  intros reader.
  destruct (Peek_ok reader 13 (NewReaderSize_ok rd size))
    as (s & e & b' & Hpeek & _ & Hun & Hbytes).
  assert (Hfront : bufio.unread (after_Peek reader)
                   = peeked reader
                       ++ (skipn 13 (buffered b') ++ bufio.stream_bytes (bufio.rd b'))).
  { unfold after_Peek, peeked. rewrite Hpeek, Hbytes, app_assoc, firstn_skipn.
    reflexivity. }
  split.
  - intros H1. split.
    + subst reader. rewrite Read_NewReaderSize. cbv zeta.
      apply bytes_Equal_true in H1. now rewrite H1.
    + rewrite Hfront. now apply (starts_with SIGV1).
  - intros H1 H2. split.
    + subst reader. rewrite Read_NewReaderSize. cbv zeta.
      apply bytes_Equal_false in H1. apply bytes_Equal_true in H2.
      now rewrite H1, H2.
    + rewrite Hfront. now apply (starts_with SIGV2).
Qed.

Lemma Read_hands_signature_to_parser_witness :
  exists rest,
    bufio.unread
      (after_Peek (bufio.NewReader
                     [(list_byte_of_string "PROXY TCP4 1.2.3.4 5.6.7.8 1 2", None)]))
    = SIGV1 ++ rest.
Proof.
  apply (Read_hands_signature_to_parser
           (fun _ => Panic) (fun _ => Panic)
           [(list_byte_of_string "PROXY TCP4 1.2.3.4 5.6.7.8 1 2", None)]
           bufio.defaultBufSize).
  vm_compute. reflexivity.
Defined.

(** ** Bytes of the buffer that are not part of the stream *)

(** X12: with an error pending on the reader and fewer than 5 bytes left
    unread, the version 1 test of [Read] looks at the 5 bytes of the buffer
    that follow the read position, unread or not: if they spell "PROXY",
    [Read] calls [parseVersion1] although the stream has fewer than 5 bytes
    left. *)
Theorem Read_reads_past_unread_bytes
    (parseVersion1 parseVersion2 :
       bufio.Reader -> result (option Header * option error * bufio.Reader))
    (reader : bufio.Reader) :
  reader_ok reader ->
  bufio.err reader <> None ->
  bufio.w reader - bufio.r reader < 5 ->
  13 <= length (bufio.buf reader) ->
  firstn 5 (skipn (bufio.r reader) (bufio.buf reader)) = SIGV1 ->
  length (peeked reader) < 5
  /\ Read parseVersion1 parseVersion2 reader
     = parseVersion1 (bufio.set_err reader None).
Proof.
  intros [Hrw Hw] Herr Hshort Hbuf Hstale.
  assert (Hcap : 5 <= length (bufio.buf reader) - bufio.r reader).
  { apply (f_equal (@length byte)) in Hstale.
    rewrite length_firstn, length_skipn in Hstale.
    change (length SIGV1) with 5 in Hstale. lia. }
  assert (Hpeek : bufio.Peek reader 13
                  = Return ({| bufio.array := bufio.buf reader;
                               bufio.offset := bufio.r reader;
                               bufio.len := bufio.w reader - bufio.r reader;
                               bufio.cap := length (bufio.buf reader) - bufio.r reader |},
                            bufio.err reader, bufio.set_err reader None)).
  { unfold bufio.Peek.
    rewrite peek_loop_stop by now apply peek_more_err.
    cbn [bind].
    replace (length (bufio.buf reader) <? 13) with false
      by (symmetry; apply Nat.ltb_ge; lia).
    replace (bufio.w reader - bufio.r reader <? 13) with true
      by (symmetry; apply Nat.ltb_lt; lia).
    unfold bufio.readErr, bufio.slice_buf.
    cbn [bufio.set_err bufio.buf bufio.r bufio.w].
    replace (bufio.r reader <=? bufio.r reader + (bufio.w reader - bufio.r reader))
      with true by (symmetry; apply Nat.leb_le; lia).
    replace (bufio.r reader + (bufio.w reader - bufio.r reader)
             <=? length (bufio.buf reader))
      with true by (symmetry; apply Nat.leb_le; lia).
    cbn [andb bind].
    replace (bufio.r reader + (bufio.w reader - bufio.r reader) - bufio.r reader)
      with (bufio.w reader - bufio.r reader) by lia.
    destruct (bufio.err reader); [reflexivity | contradiction]. }
  split.
  - unfold peeked. rewrite Hpeek. unfold bufio.bytes_of.
    cbn [bufio.array bufio.offset bufio.len].
    rewrite length_firstn. lia.
  - unfold Read. rewrite Hpeek. cbn [bind]. unfold bufio.slice_to. cbn [bufio.cap].
    replace (5 <=? length (bufio.buf reader) - bufio.r reader) with true
      by (symmetry; now apply Nat.leb_le).
    cbn [bind]. unfold bufio.bytes_of. cbn [bufio.array bufio.offset bufio.len].
    apply bytes_Equal_true in Hstale. now rewrite Hstale.
Qed.

Lemma Read_reads_past_unread_bytes_witness :
  length (peeked {| bufio.buf := list_byte_of_string "GET /PROXY TCP4 ";
                    bufio.rd := []; bufio.r := 5; bufio.w := 7;
                    bufio.err := Some io_EOF |}) < 5
  /\ Read (fun b => Return (None, Some ErrInvalidAddress, b))
          (fun b => Return (None, Some ErrInvalidLength, b))
          {| bufio.buf := list_byte_of_string "GET /PROXY TCP4 ";
             bufio.rd := []; bufio.r := 5; bufio.w := 7; bufio.err := Some io_EOF |}
     = Return (None, Some ErrInvalidAddress,
               {| bufio.buf := list_byte_of_string "GET /PROXY TCP4 ";
                  bufio.rd := []; bufio.r := 5; bufio.w := 7; bufio.err := None |}).
Proof.
  apply (Read_reads_past_unread_bytes
           (fun b => Return (None, Some ErrInvalidAddress, b))
           (fun b => Return (None, Some ErrInvalidLength, b))
           {| bufio.buf := list_byte_of_string "GET /PROXY TCP4 ";
              bufio.rd := []; bufio.r := 5; bufio.w := 7;
              bufio.err := Some io_EOF |});
    try (unfold reader_ok; simpl; lia).
  - discriminate.
  - reflexivity.
Defined.
